(** * Verification of the per-file analysis unit of the ANTLR grammar tooling
    (SourceContext.ts): reference mesh, parse driver, automaton graph
    extraction, sentence generation and the global built-in symbol table. *)

From Stdlib Require Import List Arith ZArith Lia Bool String Ascii Permutation.
Import ListNotations.
Open Scope nat_scope.

(** ** The reference mesh of source contexts *)
Module Mesh.

(** A source context is identified by a number; [refs c] is the
    [references] array of context [c] (the contexts referencing [c]) and
    [deps c] the dependency set of [c]'s symbol table, as a list without
    duplicates. *)
Record mesh := { refs : nat -> list nat; deps : nat -> list nat }.

Definition upd (f : nat -> list nat) (c : nat) (l : list nat) : nat -> list nat :=
  fun x => if Nat.eqb x c then l else f x.

(** [Array.prototype.indexOf(x) > -1]. *)
Definition contains (l : list nat) (x : nat) : bool := existsb (Nat.eqb x) l.

(** antlr4-c3 [SymbolTable.addDependencies]: the dependencies are a [Set]. *)
Definition set_add (l : list nat) (x : nat) : list nat :=
  if contains l x then l else l ++ [x].

(** The [while (pipeline.length > 0)] loop of [addAsReferenceTo]; [fuel]
    bounds the number of evaluations of the loop condition, [None] means
    the loop is still running after that many. [Some true] is the early
    [return] ("Already in the list"), [Some false] the exit of the loop. *)
Fixpoint add_walk (fuel : nat) (r : nat -> list nat) (self : nat)
    (pipeline : list nat) : option bool :=
  match fuel with
  | 0 => None
  | S f =>
      match pipeline with
      | [] => Some false
      | current :: rest =>
          if contains (r current) self then Some true
          else add_walk f r self (rest ++ r current)
      end
  end.

(** [self.addAsReferenceTo(context)]. *)
Definition addAsReferenceTo (fuel : nat) (m : mesh) (self context : nat)
    : option mesh :=
  match add_walk fuel (refs m) self [context] with
  | None => None
  | Some true => Some m
  | Some false =>
      Some {| refs := upd (refs m) context (refs m context ++ [self]);
              deps := upd (deps m) self (set_add (deps m self) context) |}
  end.

Definition empty_mesh : mesh := {| refs := fun _ => []; deps := fun _ => [] |}.

End Mesh.

(** ** Results of JavaScript code that may throw *)
Inductive js_error := TypeError | RuntimeError (code : nat).

Inductive js_result (A : Type) :=
| Returned (a : A)
| Thrown (e : js_error).
Arguments Returned {A} a.
Arguments Thrown {A} e.

(** [Map<string, number>.get]: the maps built by [setupInterpreters] as
    association lists, the first entry of a key wins. *)
Fixpoint map_get (m : list (string * nat)) (k : string) : option nat :=
  match m with
  | [] => None
  | (k', v) :: t => if String.eqb k k' then Some v else map_get t k
  end.

(** ** Automaton graph extraction ([getATNGraph]) *)
Module ATNGraph.

(** [ATNStateType.RULE_START], [ATNStateType.RULE_STOP] and
    [TransitionType.RULE] of antlr4ts. *)
Definition RULE_START : nat := 2.
Definition RULE_STOP : nat := 7.
Definition TRANSITION_RULE : nat := 3.

(** A transition: its target state, its [serializationType] and, for a
    [RuleTransition], the [followState] in the calling rule. *)
Record Transition := {
  tr_target : nat;
  tr_type : nat;
  tr_follow : nat
}.

(** An ATN; states are identified by their [stateNumber]. *)
Record ATN := {
  stateType : nat -> nat;
  transitions : nat -> list Transition;
  stateRule : nat -> nat;             (* ATNState.ruleIndex *)
  ruleToStartState : list nat;
  ruleToStopState : list nat
}.

Record InterpreterData := {
  atn : ATN;
  ruleNames : list string
}.

(** Node names: [id.toString()] for state nodes, the rule name
    [ruleNames[...]] (possibly undefined) for synthetic rule nodes. *)
Inductive NodeName := IdText (id : nat) | RuleName (name : option string).

Record ATNNode := { node_id : Z; node_name : NodeName; node_type : nat }.

Record ATNLink := {
  link_source : nat;
  link_target : nat;
  link_type : nat;
  link_labels : list string
}.

(** Local state of one [getATNGraph] run. [expanded] records the states
    taken from the pipeline, in order (instrumentation for the proofs, not
    a variable of the source). [stateToIndex] is a [Map<number, number>]:
    [set] pushes a new entry in front, [get] finds the newest one. *)
Record GState := {
  pipeline : list nat;
  seenStates : list nat;
  stateToIndex : list (nat * nat);
  nodes : list ATNNode;
  links : list ATNLink;
  currentRuleIndex : Z;
  expanded : list nat
}.

Fixpoint index_get (m : list (nat * nat)) (k : nat) : option nat :=
  match m with
  | [] => None
  | (k', v) :: t => if Nat.eqb k k' then Some v else index_get t k
  end.

Section Extract.
Variable a : ATN.
Variable names : list string.
(** The stop state of the rule ([undefined] when out of range). *)
Variable stopState : option nat.
(** The labels the [switch] on [serializationType] attaches to an
    ordinary link (they play no role in the graph's shape). *)
Variable labelsOf : Transition -> list string.

Definition is_rule_start (s : nat) : bool := Nat.eqb (stateType a s) RULE_START.

Definition set_pipeline g p :=
  {| pipeline := p; seenStates := seenStates g; stateToIndex := stateToIndex g;
     nodes := nodes g; links := links g; currentRuleIndex := currentRuleIndex g;
     expanded := expanded g |}.

Definition add_link g l :=
  {| pipeline := pipeline g; seenStates := seenStates g; stateToIndex := stateToIndex g;
     nodes := nodes g; links := links g ++ [l]; currentRuleIndex := currentRuleIndex g;
     expanded := expanded g |}.

(** [ensureATNNode(id, state)]. *)
Definition ensureATNNode (id state : nat) (g : GState) : nat * GState :=
  match index_get (stateToIndex g) id with
  | Some index => (index, g)
  | None =>
      let index := List.length (nodes g) in
      let map1 := (id, index) :: stateToIndex g in
      let nodes1 := nodes g ++ [{| node_id := Z.of_nat id; node_name := IdText id;
                                   node_type := stateType a state |}] in
      match transitions a state with
      | [t] =>
          if is_rule_start (tr_target t) then
            let marker := state * tr_target t in
            (index,
             {| pipeline := pipeline g; seenStates := seenStates g;
                stateToIndex := (marker, List.length nodes1) :: map1;
                nodes := nodes1 ++ [{| node_id := currentRuleIndex g;
                    node_name := RuleName (nth_error names (stateRule a (tr_target t)));
                    node_type := 13 |}];
                links := links g; currentRuleIndex := (currentRuleIndex g - 1)%Z;
                expanded := expanded g |})
          else
            (index,
             {| pipeline := pipeline g; seenStates := seenStates g; stateToIndex := map1;
                nodes := nodes1; links := links g; currentRuleIndex := currentRuleIndex g;
                expanded := expanded g |})
      | _ =>
          (index,
           {| pipeline := pipeline g; seenStates := seenStates g; stateToIndex := map1;
              nodes := nodes1; links := links g; currentRuleIndex := currentRuleIndex g;
              expanded := expanded g |})
      end
  end.

Definition is_stop (s : nat) : bool :=
  match stopState with Some st => Nat.eqb s st | None => false end.

(** One iteration of [for (const transition of state.getTransitions())]. *)
Definition process_transition (state sourceIndex : nat) (g : GState)
    (transition : Transition) : GState :=
  if is_stop state then g else
  let transitsToRule := is_rule_start (tr_target transition) in
  let marker := tr_target transition * (if transitsToRule then state else 1) in
  let '(targetIndex, g1) := ensureATNNode marker (tr_target transition) g in
  let g2 := add_link g1 {| link_source := sourceIndex; link_target := targetIndex;
                           link_type := tr_type transition;
                           link_labels := labelsOf transition |} in
  let '(nextState, g3) :=
    if transitsToRule then
      let nextState := tr_follow transition in
      let '(returnIndex, g3) := ensureATNNode nextState nextState g2 in
      (nextState, add_link g3 {| link_source := targetIndex; link_target := returnIndex;
                                 link_type := TRANSITION_RULE;
                                 link_labels := ["ε"%string] |})
    else (tr_target transition, g2) in
  if existsb (Nat.eqb nextState) (seenStates g3) then g3
  else {| pipeline := pipeline g3 ++ [nextState];
          seenStates := seenStates g3 ++ [nextState];
          stateToIndex := stateToIndex g3; nodes := nodes g3; links := links g3;
          currentRuleIndex := currentRuleIndex g3; expanded := expanded g3 |}.

(** One iteration of the [while (pipeline.length > 0)] loop on a
    non-empty pipeline. *)
Definition expand (state : nat) (rest : list nat) (g : GState) : GState :=
  let g0 := {| pipeline := rest; seenStates := seenStates g;
               stateToIndex := stateToIndex g; nodes := nodes g; links := links g;
               currentRuleIndex := currentRuleIndex g;
               expanded := expanded g ++ [state] |} in
  let '(sourceIndex, g1) := ensureATNNode state state g0 in
  fold_left (process_transition state sourceIndex) (transitions a state) g1.

(** The loop; [fuel] bounds the number of iterations. *)
Fixpoint graph_loop (fuel : nat) (g : GState) : option GState :=
  match fuel with
  | 0 => None
  | S f =>
      match pipeline g with
      | [] => Some g
      | state :: rest => graph_loop f (expand state rest g)
      end
  end.

Definition init_state (startState : nat) : GState :=
  {| pipeline := [startState]; seenStates := [startState]; stateToIndex := [];
     nodes := []; links := []; currentRuleIndex := (-1)%Z; expanded := [] |}.

(** Vocabulary of the properties of the extraction. A state [calls] a rule
    when its only transition goes to a rule start state, as the test in
    [ensureATNNode] reads it; [marker_of] is the composite id under which
    [ensureATNNode] registers the synthetic node of such a state. *)
Definition target_of (s : nat) : nat :=
  match transitions a s with [t] => tr_target t | _ => 0 end.

Definition calling (s : nat) : bool :=
  match transitions a s with [t] => is_rule_start (tr_target t) | _ => false end.

Definition marker_of (s : nat) : nat := s * target_of s.

(** The node [ensureATNNode] adds for an absent id, and the synthetic rule
    node it adds for a calling state. *)
Definition own_node (id state : nat) : ATNNode :=
  {| node_id := Z.of_nat id; node_name := IdText id; node_type := stateType a state |}.

Definition rule_node (cid : Z) (state : nat) : ATNNode :=
  {| node_id := cid; node_name := RuleName (nth_error names (stateRule a (target_of state)));
     node_type := 13 |}.

(** The state the traversal continues with after a transition: the follow
    state for a rule transition, the target otherwise. *)
Definition next_state (tr : Transition) : nat :=
  if is_rule_start (tr_target tr) then tr_follow tr else tr_target tr.

(** States reachable from [start] by transitions that do not leave the stop
    state, stepping over rule calls to their follow states. *)
Inductive reachable (start : nat) : nat -> Prop :=
| reach_start : reachable start start
| reach_step s tr :
    reachable start s -> is_stop s = false -> In tr (transitions a s) ->
    reachable start (next_state tr).

(** Synthetic rule nodes in a node list. *)
Definition count_synthetic (ns : list ATNNode) : nat :=
  List.length (filter (fun n => Nat.eqb (node_type n) 13) ns).

(** Links produced while expanding a state: one per transition, two for a
    rule transition, none for the stop state. *)
Definition link_count (s : nat) : nat :=
  if is_stop s then 0
  else list_sum (List.map (fun tr => if is_rule_start (tr_target tr) then 2 else 1)
                          (transitions a s)).

(** ANTLR's ATN builder puts a rule transition alone on a basic state. *)
Definition rule_calls_alone : Prop :=
  forall s tr, In tr (transitions a s) -> is_rule_start (tr_target tr) = true ->
    transitions a s = [tr].

(** The same for the states the traversal from [start] can reach: the
    states of the rule's body and the follow states of its calls. A state
    outside the rule, such as the [TokensStartState] of a lexer ATN with its
    epsilon transitions to several rule start states, is not constrained. *)
Definition rule_calls_alone_from (start : nat) : Prop :=
  forall s tr, reachable start s -> In tr (transitions a s) ->
    is_rule_start (tr_target tr) = true -> transitions a s = [tr].

(** The composite ids of the calling states reachable from [start] differ
    from every reachable state number and from each other. *)
Definition composite_ids_distinct (start : nat) : Prop :=
  (forall x s, reachable start x -> reachable start s -> calling s = true ->
     marker_of s <> x) /\
  (forall s1 s2, reachable start s1 -> reachable start s2 ->
     calling s1 = true -> calling s2 = true -> s1 <> s2 -> marker_of s1 <> marker_of s2).

(** Invariants of the traversal, used by the proofs below.
    [has m k]: [stateToIndex.has(k)]. *)
Definition has (m : list (nat * nat)) (k : nat) : bool :=
  match index_get m k with Some _ => true | None => false end.

(** A state whose node, and for a calling state whose rule node, are
    already registered: expanding it adds no node. *)
Definition paid (m : list (nat * nat)) (x : nat) : bool :=
  has m x && (negb (calling x) || has m (marker_of x)).

Definition incl_keys (m m' : list (nat * nat)) : Prop :=
  forall k, has m k = true -> has m' k = true.

(** A state is the start state or was entered by a followed transition of
    an expanded state other than the stop state. *)
Definition origin (start : nat) (ex : list nat) (x : nat) : Prop :=
  x = start \/ exists s tr, In s ex /\ is_stop s = false /\
    In tr (transitions a s) /\ next_state tr = x.

(** Between two iterations of the loop. *)
Definition inv_between (start : nat) (g : GState) : Prop :=
  seenStates g = expanded g ++ pipeline g /\ NoDup (seenStates g) /\
  ((expanded g = [] /\ pipeline g = [start]) \/
   forall x, In x (seenStates g) -> has (stateToIndex g) x = true) /\
  List.length (nodes g) <= List.length (expanded g)
    + List.length (filter (paid (stateToIndex g)) (pipeline g)) + count_synthetic (nodes g) /\
  (forall x, In x (seenStates g) ->
     reachable start x /\ origin start (expanded g) x).

(** While the transitions of the expanded state [s] are processed. *)
Definition inv_within (start s : nat) (g : GState) : Prop :=
  seenStates g = expanded g ++ pipeline g /\ NoDup (seenStates g) /\
  (forall x, In x (seenStates g) -> has (stateToIndex g) x = true) /\
  In s (expanded g) /\
  List.length (nodes g) + (if paid (stateToIndex g) s then 0 else 1)
    <= List.length (expanded g)
       + List.length (filter (paid (stateToIndex g)) (pipeline g)) + count_synthetic (nodes g) /\
  (forall x, In x (seenStates g) ->
     reachable start x /\ origin start (expanded g) x).

(** Every registered id leads to the node of a reachable state, or to the
    rule node of a reachable calling state registered under its composite
    id; a registered calling state has its composite id registered. *)
Definition index_sound (start : nat) (m : list (nat * nat)) (ns : list ATNNode) : Prop :=
  (forall k i, index_get m k = Some i ->
     (reachable start k /\ nth_error ns i = Some (own_node k k)) \/
     (exists s, reachable start s /\ calling s = true /\ k = marker_of s /\
        has m s = true /\ exists cid, nth_error ns i = Some (rule_node cid s))) /\
  (forall s, reachable start s -> calling s = true -> has m s = true ->
     has m (marker_of s) = true).

(** The rule transition [tr] of [s] has its link, its back link and its
    follow state in the traversal [g]. *)
Definition call_linked (g : GState) (s : nat) (tr : Transition) : Prop :=
  exists k i j, index_get (stateToIndex g) s = Some k /\
    index_get (stateToIndex g) (tr_target tr * s) = Some i /\
    index_get (stateToIndex g) (tr_follow tr) = Some j /\
    In {| link_source := k; link_target := i; link_type := tr_type tr;
          link_labels := labelsOf tr |} (links g) /\
    In {| link_source := i; link_target := j; link_type := TRANSITION_RULE;
          link_labels := ["ε"%string] |} (links g) /\
    In (tr_follow tr) (seenStates g).

Definition calls_linked (g : GState) (ex : list nat) : Prop :=
  forall s tr, In s ex -> is_stop s = false -> In tr (transitions a s) ->
    is_rule_start (tr_target tr) = true -> call_linked g s tr.

(** [g'] keeps the lookups, links and seen states of [g]. *)
Definition grows (g g' : GState) : Prop :=
  (forall k i, index_get (stateToIndex g) k = Some i -> index_get (stateToIndex g') k = Some i) /\
  (forall l, In l (links g) -> In l (links g')) /\
  (forall x, In x (seenStates g) -> In x (seenStates g')) /\
  expanded g' = expanded g.

Definition inv6 (start : nat) (g : GState) : Prop :=
  index_sound start (stateToIndex g) (nodes g) /\
  (forall x, In x (pipeline g) -> reachable start x) /\
  (forall x, In x (expanded g) -> reachable start x) /\
  calls_linked g (expanded g).

End Extract.

(** Two small ATNs with rules [a] (states 0, 1), [b] (start 2, stop 3,
    body 7) and [c] (start 4, stop 6). Transition types: 1 is epsilon, 3 is
    a rule transition. In [collide_atn] rule [c] calls [b] twice, from state
    5 (returning to state 10) and from state 10 (returning to 11); the
    composite id 5 * 2 of the first call is the number of state 10. In
    [call_atn] rule [c] calls [b] once, from state 5 (returning to 11), and
    the stop state 6 has a transition back to a caller. *)
Definition ex_stateType (s : nat) : nat :=
  match s with 0 | 2 | 4 => 2 | 1 | 3 | 6 => 7 | _ => 1 end.

Definition ex_stateRule (s : nat) : nat :=
  match s with 0 | 1 => 0 | 2 | 3 | 7 => 1 | _ => 2 end.

Definition eps (t : nat) : Transition := {| tr_target := t; tr_type := 1; tr_follow := 0 |}.

Definition call_b (follow : nat) : Transition :=
  {| tr_target := 2; tr_type := TRANSITION_RULE; tr_follow := follow |}.

Definition collide_atn : ATN :=
  {| stateType := ex_stateType;
     transitions := fun s => match s with
       | 2 => [eps 7] | 7 => [eps 3] | 4 => [eps 5] | 5 => [call_b 10]
       | 10 => [call_b 11] | 11 => [eps 6] | _ => [] end;
     stateRule := ex_stateRule;
     ruleToStartState := [0; 2; 4]; ruleToStopState := [1; 3; 6] |}.

Definition call_atn : ATN :=
  {| stateType := ex_stateType;
     transitions := fun s => match s with
       | 2 => [eps 7] | 7 => [eps 3] | 4 => [eps 5] | 5 => [call_b 11]
       | 11 => [eps 6] | 6 => [eps 12] | _ => [] end;
     stateRule := ex_stateRule;
     ruleToStartState := [0; 2; 4]; ruleToStopState := [1; 3; 6] |}.

(** [call_atn] inside a lexer ATN: state 13 is the mode's
    [TokensStartState] (state type 6), with epsilon transitions to the start
    states of rules [b] and [c]. *)
Definition tokens_atn : ATN :=
  {| stateType := fun s => if Nat.eqb s 13 then 6 else ex_stateType s;
     transitions := fun s => if Nat.eqb s 13 then [eps 2; eps 4] else transitions call_atn s;
     stateRule := ex_stateRule;
     ruleToStartState := [0; 2; 4]; ruleToStopState := [1; 3; 6] |}.

Definition ex_names : list string := ["a"; "b"; "c"]%string.

End ATNGraph.

(** ** The process-wide global symbol table *)
Module GlobalSymbols.

Inductive SymbolType := BuiltInChannelSymbol | BuiltInTokenSymbol | BuiltInModeSymbol.

Record Sym := { sym_type : SymbolType; sym_name : string }.

(** The global table holds no dependencies, so [resolve] searches its own
    symbols only. *)
Fixpoint resolve (table : list Sym) (name : string) : option Sym :=
  match table with
  | [] => None
  | s :: t => if String.eqb (sym_name s) name then Some s else resolve t name
  end.

(** antlr4-c3 [addNewSymbolOfType] on a table created with
    [allowDuplicateSymbols: false]: a symbol whose name is already taken
    raises a [DuplicateSymbolError] (error code 1 here). *)
Definition addNewSymbolOfType (ty : SymbolType) (name : string) (table : list Sym)
    : js_result (list Sym) :=
  if existsb (fun s => String.eqb (sym_name s) name) table
  then Thrown (RuntimeError 1)
  else Returned (table ++ [{| sym_type := ty; sym_name := name |}]).

Definition bind_js {A B} (r : js_result A) (k : A -> js_result B) : js_result B :=
  match r with Returned a => k a | Thrown e => Thrown e end.

(** The part of the [SourceContext] constructor that touches the static
    [globalSymbols] table. *)
Definition constructor_global (table : list Sym) : js_result (list Sym) :=
  match resolve table "EOF" with
  | Some _ => Returned table
  | None =>
      bind_js (addNewSymbolOfType BuiltInChannelSymbol "DEFAULT_TOKEN_CHANNEL" table) (fun t1 =>
      bind_js (addNewSymbolOfType BuiltInChannelSymbol "HIDDEN" t1) (fun t2 =>
      bind_js (addNewSymbolOfType BuiltInTokenSymbol "EOF" t2) (fun t3 =>
      addNewSymbolOfType BuiltInModeSymbol "DEFAULT_MODE" t3)))
  end.

(** [new ContextSymbolTable("Global Symbols", ...)]: the table starts empty. *)
Definition initial_table : list Sym := [].

(** [n] successive [new SourceContext(...)] in one process. *)
Fixpoint construct_n (n : nat) (table : list Sym) : js_result (list Sym) :=
  match n with
  | 0 => Returned table
  | S k => bind_js (constructor_global table) (construct_n k)
  end.

Definition count_name (table : list Sym) (name : string) : nat :=
  List.length (filter (fun s => String.eqb (sym_name s) name) table).

End GlobalSymbols.

(** ** The source context: parse driver, semantic pass, interpreter data *)
Module Context.
Import ATNGraph.

Inductive GrammarType := Unknown | Parser | Lexer | Combined.

Record Tree := { tree_id : nat; childCount : nat }.
Record Diag := { diag_type : nat; diag_message : string }.

Inductive Exn := ParseCancellationException | OtherException (code : nat).

Inductive ErrorStrategy := BailErrorStrategy | DefaultErrorStrategy.
Inductive PredictionMode := SLL | LL.

(** What one call of [parser.grammarSpec()] does: it returns a tree or
    throws, reports diagnostics to the error listener and leaves the token
    stream at some position. *)
Record ParseOutcome := {
  out_result : Tree + Exn;
  out_diags : list Diag;
  out_end : nat
}.

(** The fields of a [SourceContext] the claims are about. The symbol table
    is its list of symbols (names) and its dependency list (table ids,
    [0] is the global table). [semanticWalks] counts the runs of the
    semantic tree walk (instrumentation for the proofs). *)
Record Ctx := {
  tree : option Tree;
  grammarType : GrammarType;
  imports : list string;
  unreferencedRules : list string;
  diagnostics : list Diag;
  semanticAnalysisDone : bool;
  rrdScripts : list (string * string);
  semanticWalks : nat;
  symbols : list string;
  symbolDeps : list nat;
  grammarLexerData : option InterpreterData;
  grammarLexerRuleMap : list (string * nat);
  grammarParserData : option InterpreterData;
  grammarParserRuleMap : list (string * nat);
  tokenPos : nat
}.

Definition global_table_id : nat := 0.

Section Driver.
(** The generated ANTLRv4 parser: one run of [grammarSpec()] with the
    given error strategy and prediction mode, from a token position. *)
Variable grammarSpec : ErrorStrategy -> PredictionMode -> nat -> ParseOutcome.
(** [tree.grammarType()]: [None] when the access throws (ignored). *)
Variable grammarTypeOf : Tree -> option GrammarType.
(** The [DetailsListener] walk: the symbols it adds and the imports. *)
Variable detailsWalk : option Tree -> list string * list string.
Variable getUnreferencedSymbols : list string -> list string.
(** The [SemanticListener] walk (diagnostics it appends) and the
    [RuleVisitor] (the RRD scripts it produces). *)
Variable semanticWalk : option Tree -> list string -> list Diag.
Variable ruleVisitor : option Tree -> list (string * string).

(** The statements of [parse] up to the [try], in order. *)
Definition parse_reset (c : Ctx) : Ctx :=
  {| tree := None; grammarType := Unknown; imports := [];
     unreferencedRules := unreferencedRules c;
     diagnostics := []; semanticAnalysisDone := false;
     rrdScripts := rrdScripts c; semanticWalks := semanticWalks c;
     (* Modelled from the spec: [ContextSymbolTable.clear] (not in the
        sources) clears the previous symbol state. *)
     symbols := []; symbolDeps := [global_table_id];
     grammarLexerData := None; grammarLexerRuleMap := [];
     grammarParserData := None;
     (* [this.grammarLexerRuleMap.clear()] a second time: the parser
        rule map is left as it was. *)
     grammarParserRuleMap := grammarParserRuleMap c;
     tokenPos := 0 |}.

Definition after_attempt (c : Ctx) (o : ParseOutcome) : Ctx :=
  {| tree := tree c; grammarType := grammarType c; imports := imports c;
     unreferencedRules := unreferencedRules c;
     diagnostics := diagnostics c ++ out_diags o;
     semanticAnalysisDone := semanticAnalysisDone c;
     rrdScripts := rrdScripts c; semanticWalks := semanticWalks c;
     symbols := symbols c; symbolDeps := symbolDeps c;
     grammarLexerData := grammarLexerData c; grammarLexerRuleMap := grammarLexerRuleMap c;
     grammarParserData := grammarParserData c; grammarParserRuleMap := grammarParserRuleMap c;
     tokenPos := out_end o |}.

Definition seek0 (c : Ctx) : Ctx :=
  {| tree := tree c; grammarType := grammarType c; imports := imports c;
     unreferencedRules := unreferencedRules c; diagnostics := diagnostics c;
     semanticAnalysisDone := semanticAnalysisDone c;
     rrdScripts := rrdScripts c; semanticWalks := semanticWalks c;
     symbols := symbols c; symbolDeps := symbolDeps c;
     grammarLexerData := grammarLexerData c; grammarLexerRuleMap := grammarLexerRuleMap c;
     grammarParserData := grammarParserData c; grammarParserRuleMap := grammarParserRuleMap c;
     tokenPos := 0 |}.

(** The code after the [try]/[catch]: grammar type, details walk. *)
Definition parse_finish (c : Ctx) (t : Tree) : Ctx :=
  let ty := if Nat.ltb 0 (childCount t)
            then match grammarTypeOf t with Some g => g | None => Unknown end
            else Unknown in
  let '(syms, imps) := detailsWalk (Some t) in
  {| tree := Some t; grammarType := ty; imports := imps;
     unreferencedRules := getUnreferencedSymbols (symbols c ++ syms);
     diagnostics := diagnostics c;
     semanticAnalysisDone := semanticAnalysisDone c;
     rrdScripts := rrdScripts c; semanticWalks := semanticWalks c;
     symbols := symbols c ++ syms; symbolDeps := symbolDeps c;
     grammarLexerData := grammarLexerData c; grammarLexerRuleMap := grammarLexerRuleMap c;
     grammarParserData := grammarParserData c; grammarParserRuleMap := grammarParserRuleMap c;
     tokenPos := tokenPos c |}.

(** [parse()]: the new context, the returned imports or the exception
    that escapes, and the log of [grammarSpec()] runs as
    (error strategy, prediction mode, start position). *)
Definition parse (c : Ctx)
    : Ctx * (list string + Exn) * list (ErrorStrategy * PredictionMode * nat) :=
  let c0 := parse_reset c in
  let o1 := grammarSpec BailErrorStrategy SLL (tokenPos c0) in
  let c1 := after_attempt c0 o1 in
  let log1 := [(BailErrorStrategy, SLL, tokenPos c0)] in
  match out_result o1 with
  | inl t => let c' := parse_finish c1 t in (c', inl (imports c'), log1)
  | inr ParseCancellationException =>
      let c2 := seek0 c1 in
      let o2 := grammarSpec DefaultErrorStrategy LL (tokenPos c2) in
      let c3 := after_attempt c2 o2 in
      let log2 := log1 ++ [(DefaultErrorStrategy, LL, tokenPos c2)] in
      match out_result o2 with
      | inl t => let c' := parse_finish c3 t in (c', inl (imports c'), log2)
      | inr e => (c3, inr e, log2)
      end
  | inr e => (c1, inr e, log1)
  end.

(** [runSemanticAnalysisIfNeeded()]. *)
Definition runSemanticAnalysisIfNeeded (c : Ctx) : Ctx :=
  if semanticAnalysisDone c then c else
  {| tree := tree c; grammarType := grammarType c; imports := imports c;
     unreferencedRules := unreferencedRules c;
     diagnostics := diagnostics c ++ semanticWalk (tree c) (symbols c);
     semanticAnalysisDone := true;
     rrdScripts := ruleVisitor (tree c);
     semanticWalks := S (semanticWalks c);
     symbols := symbols c; symbolDeps := symbolDeps c;
     grammarLexerData := grammarLexerData c; grammarLexerRuleMap := grammarLexerRuleMap c;
     grammarParserData := grammarParserData c; grammarParserRuleMap := grammarParserRuleMap c;
     tokenPos := tokenPos c |}.

(** The public operations that touch the semantic state of this
    context. [GetReferenceCount] stands for the part of
    [getReferenceCount] that runs on this context itself. *)
Inductive Op :=
| DoParse
| GetDiagnostics
| GetReferenceGraph
| GetRRDScript (rule : string)
| GetReferenceCount (symbol : string).

Definition run_op (c : Ctx) (op : Op) : Ctx :=
  match op with
  | DoParse => fst (fst (parse c))
  | GetDiagnostics | GetReferenceGraph | GetRRDScript _ | GetReferenceCount _ =>
      runSemanticAnalysisIfNeeded c
  end.

Definition run_ops (c : Ctx) (ops : list Op) : Ctx := fold_left run_op ops c.

Definition is_query (op : Op) : bool :=
  match op with DoParse => false | _ => true end.

End Driver.

(** A freshly constructed [SourceContext] (symbol table and token stream
    created, nothing parsed or loaded). *)
Definition new_ctx : Ctx :=
  {| tree := None; grammarType := Unknown; imports := []; unreferencedRules := [];
     diagnostics := []; semanticAnalysisDone := false; rrdScripts := [];
     semanticWalks := 0; symbols := []; symbolDeps := [];
     grammarLexerData := None; grammarLexerRuleMap := [];
     grammarParserData := None; grammarParserRuleMap := []; tokenPos := 0 |}.

(** [setupInterpreters]: the data read from the [.interp] files that exist
    ([None] when the file does not exist) replace the loaded data. *)
Definition rule_map (d : InterpreterData) : list (string * nat) :=
  rev (combine (ruleNames d) (seq 0 (List.length (ruleNames d)))).

Definition setupInterpreters (lexerFile parserFile : option InterpreterData) (c : Ctx) : Ctx :=
  {| tree := tree c; grammarType := grammarType c; imports := imports c;
     unreferencedRules := unreferencedRules c; diagnostics := diagnostics c;
     semanticAnalysisDone := semanticAnalysisDone c;
     rrdScripts := rrdScripts c; semanticWalks := semanticWalks c;
     symbols := symbols c; symbolDeps := symbolDeps c;
     grammarLexerData := lexerFile;
     grammarLexerRuleMap := match lexerFile with Some d => rule_map d | None => [] end;
     grammarParserData := parserFile;
     grammarParserRuleMap := match parserFile with Some d => rule_map d | None => [] end;
     tokenPos := tokenPos c |}.

End Context.

(** ** [getReferenceCount] over the contexts of the mesh *)
Module MeshCount.
Import Context.

(** The source contexts of the mesh, by number. *)
Definition store := nat -> Ctx.

Definition store_upd (st : store) (c : nat) (x : Ctx) : store :=
  fun y => if Nat.eqb y c then x else st y.

Section Count.
Variable semanticWalk : option Tree -> list string -> list Diag.
Variable ruleVisitor : option Tree -> list (string * string).
(** [this.symbolTable.getReferenceCount(symbol)], read from the context
    after its semantic analysis. *)
Variable localCount : Ctx -> string -> nat.

(** [runSemanticAnalysisIfNeeded()] with its failure on a context that was
    never parsed: the flag is set and [rrdScripts] becomes an empty map;
    antlr4ts' [ParseTreeWalker.walk] does nothing on [undefined] (its loop
    runs while it has a node), and [visitor.visit(this.tree!)] then throws
    a [TypeError] ([undefined.accept]). *)
Definition runSemanticAnalysisChecked (c : Ctx) : js_result unit * Ctx :=
  if semanticAnalysisDone c then (Returned tt, c) else
  match tree c with
  | Some _ => (Returned tt, runSemanticAnalysisIfNeeded semanticWalk ruleVisitor c)
  | None =>
      (Thrown TypeError,
       {| tree := tree c; grammarType := grammarType c; imports := imports c;
          unreferencedRules := unreferencedRules c; diagnostics := diagnostics c;
          semanticAnalysisDone := true; rrdScripts := [];
          semanticWalks := semanticWalks c;
          symbols := symbols c; symbolDeps := symbolDeps c;
          grammarLexerData := grammarLexerData c;
          grammarLexerRuleMap := grammarLexerRuleMap c;
          grammarParserData := grammarParserData c;
          grammarParserRuleMap := grammarParserRuleMap c;
          tokenPos := tokenPos c |})
  end.

(** [c.getReferenceCount(symbol)] with [r c] the [references] array of
    context [c]: the semantic analysis of [c], then the local count plus,
    recursively, the count of every context in [references]. An exception
    escapes with the contexts as they are when it is thrown. [fuel] bounds
    the recursion depth; [None] means the recursion is deeper than that (in
    the running program, a stack overflow). *)
Fixpoint getReferenceCount (fuel : nat) (r : nat -> list nat) (st : store)
    (c : nat) (s : string) : option (js_result nat * store) :=
  match fuel with
  | 0 => None
  | S f =>
      let '(res, cx) := runSemanticAnalysisChecked (st c) in
      let st1 := store_upd st c cx in
      match res with
      | Thrown e => Some (Thrown e, st1)
      | Returned _ =>
          let fix go (l : list nat) (result : nat) (st : store)
              : option (js_result nat * store) :=
            match l with
            | [] => Some (Returned result, st)
            | reference :: rest =>
                match getReferenceCount f r st reference s with
                | None => None
                | Some (Thrown e, st') => Some (Thrown e, st')
                | Some (Returned n, st') => go rest (result + n) st'
                end
            end in
          go (r c) (localCount cx s) st1
      end
  end.
End Count.

End MeshCount.

(** ** Entry points that read the interpreter data *)
Module Interp.
Import ATNGraph Context.

Section WithUpper.
(** [String.prototype.toUpperCase], any total function. *)
Variable toUpperCase : string -> string.

(** [rule[0]]: [undefined] for the empty string. *)
Definition first_char (s : string) : option string :=
  match s with
  | EmptyString => None
  | String ch _ => Some (String ch EmptyString)
  end.

(** [rule[0] === rule[0].toUpperCase()]; reading [toUpperCase] of
    [undefined] throws a [TypeError]. *)
Definition isLexerRuleName (rule : string) : js_result bool :=
  match first_char rule with
  | None => Thrown TypeError
  | Some ch => Returned (String.eqb ch (toUpperCase ch))
  end.

(** Lines 1097-1107 of [getATNGraph]: [Returned None] is the early
    [return] (undefined); otherwise the data, the rule index and the
    lexer/parser flag the extraction works with. *)
Definition atn_graph_entry (c : Ctx) (rule : string)
    : js_result (option (InterpreterData * nat * bool)) :=
  match isLexerRuleName rule with
  | Thrown e => Thrown e
  | Returned isLexerRule =>
      let data := if isLexerRule then grammarLexerData c else grammarParserData c in
      match data with
      | None => Returned None
      | Some d =>
          let ruleIndexMap := if isLexerRule then grammarLexerRuleMap c
                              else grammarParserRuleMap c in
          match map_get ruleIndexMap rule with
          | None => Returned None
          | Some ruleIndex => Returned (Some (d, ruleIndex, isLexerRule))
          end
      end
  end.

Variable labelsOf : bool -> Transition -> list string.

(** [getATNGraph(rule)]; the outer [None] means the extraction loop did
    not finish within [fuel] iterations. *)
Definition getATNGraph (fuel : nat) (c : Ctx) (rule : string)
    : option (js_result (option (list ATNNode * list ATNLink))) :=
  match atn_graph_entry c rule with
  | Thrown e => Some (Thrown e)
  | Returned None => Some (Returned None)
  | Returned (Some (d, ruleIndex, isLexerRule)) =>
      match nth_error (ruleToStartState (atn d)) ruleIndex with
      | None => Some (Thrown TypeError)   (* [undefined.stateNumber] *)
      | Some startState =>
          match graph_loop (atn d) (ruleNames d)
                  (nth_error (ruleToStopState (atn d)) ruleIndex)
                  (labelsOf isLexerRule) fuel (init_state startState) with
          | None => None
          | Some g => Some (Returned (Some (nodes g, links g)))
          end
      end
  end.



(** [new SentenceGenerator(...)] ([Some e] when it throws [e]) and the
    result of the [i]-th call of [generator.generate(...)]. *)
Variable newGeneratorFails : option Exn.
Variable generate : nat -> string + Exn.






End WithUpper.
End Interp.

(** ** Removing a reference from the mesh ([removeDependency]) *)
Module MeshRemove.
Import Mesh.

(** [const index = list.indexOf(x); if (index > -1) list.splice(index, 1)]:
    the first occurrence of [x] is dropped. *)
Fixpoint splice_first (l : list nat) (x : nat) : list nat :=
  match l with
  | [] => []
  | y :: t => if Nat.eqb y x then t else y :: splice_first t x
  end.

(** antlr4-c3 [SymbolTable.removeDependency]: [Set.delete]. *)
Definition set_delete (l : list nat) (x : nat) : list nat :=
  filter (fun y => negb (Nat.eqb y x)) l.

(** [self.removeDependency(context)]. *)
Definition removeDependency (m : mesh) (self context : nat) : mesh :=
  {| refs := upd (refs m) context (splice_first (refs m context) self);
     deps := upd (deps m) self (set_delete (deps m self) context) |}.

(** The reference lists and the dependency sets mirror each other:
    [x] is in [references] of [y] exactly when [y]'s table is a
    dependency of [x]'s, and no reference list has duplicates. *)
Definition mirrored (m : mesh) : Prop :=
  (forall x y, In x (refs m y) <-> In y (deps m x)) /\
  (forall y, NoDup (refs m y)) /\ (forall x, NoDup (deps m x)).

(** Two meshes with the same lists. *)
Definition same_mesh (m m' : mesh) : Prop :=
  forall c, refs m c = refs m' c /\ deps m c = deps m' c.

End MeshRemove.

(** ** Readable interval sets ([intervalSetToStrings]) *)
Module Intervals.
Local Open Scope string_scope.
Local Open Scope Z_scope.

(** A JavaScript string built here holds only code units below 256, so it
    is a Rocq [string] with one [ascii] per code unit. *)

(** [String.fromCharCode(char)] for [0 <= char <= 0xFF]. *)
Definition fromCharCode (c : Z) : string := String (ascii_of_nat (Z.to_nat c)) EmptyString.

(** One digit of [Number.prototype.toString(16)]: ['0'..'9'], ['a'..'f']. *)
Definition hex_digit (d : Z) : ascii :=
  ascii_of_nat (Z.to_nat (if d <? 10 then 48 + d else 87 + d)).

(** The digits of [n >= 0] in base 16, most significant first, in front of
    [acc]; [fuel] bounds the number of digits. *)
Fixpoint to_hex_aux (fuel : nat) (n : Z) (acc : string) : string :=
  match fuel with
  | O => acc
  | S f =>
      let acc' := String (hex_digit (n mod 16)) acc in
      if n <? 16 then acc' else to_hex_aux f (n / 16) acc'
  end.

(** [n.toString(16)] for an integer [n >= 0] (no leading zeros, ["0"] for 0). *)
Definition toString16 (n : Z) : string :=
  to_hex_aux (S (Z.to_nat (Z.log2 n))) n EmptyString.

(** [String.prototype.toUpperCase] on ASCII text. *)
Definition upper_ascii (ch : ascii) : ascii :=
  let n := nat_of_ascii ch in
  if (97 <=? n)%nat && (n <=? 122)%nat then ascii_of_nat (n - 32) else ch.

Fixpoint toUpperCase (s : string) : string :=
  match s with
  | EmptyString => EmptyString
  | String ch t => String (upper_ascii ch) (toUpperCase t)
  end.

(** The local [characterRepresentation] of [intervalSetToStrings]. *)
Definition characterRepresentation (char : Z) : string :=
  if char <? 0 then "EOF"
  else if ((0x21 <=? char) && (char <=? 0x7F)) || ((0xA1 <=? char) && (char <=? 0xFF))
  then "'" ++ fromCharCode char ++ "'"
  else "\u" ++ toUpperCase (toString16 char).

(** [Interval] of antlr4: the bounds [a] and [b]. *)
Record Interval := { a : Z; b : Z }.

(** [intervalSetToStrings(set)] on [set.intervals]. *)
Definition intervalSetToStrings (intervals : list Interval) : list string :=
  map (fun interval =>
         let entry := characterRepresentation (a interval) in
         if negb (a interval =? b interval)
         then entry ++ " - " ++ characterRepresentation (b interval)
         else entry)
      intervals.

(** A reader for the strings produced above (not part of the source): it
    recovers the code points, reading ["EOF"] as [-1]. *)
Definition hex_val (ch : ascii) : option Z :=
  let n := Z.of_nat (nat_of_ascii ch) in
  if (48 <=? n) && (n <=? 57) then Some (n - 48)
  else if (65 <=? n) && (n <=? 70) then Some (n - 55)
  else None.

Fixpoint read_hex (s : string) (acc : Z) : Z * string :=
  match s with
  | EmptyString => (acc, EmptyString)
  | String ch t =>
      match hex_val ch with
      | Some d => read_hex t (acc * 16 + d)
      | None => (acc, s)
      end
  end.

Definition read_rep (s : string) : option (Z * string) :=
  match s with
  | String c1 (String c2 (String c3 r)) =>
      if Ascii.eqb c1 "E" && Ascii.eqb c2 "O" && Ascii.eqb c3 "F" then Some (-1, r)
      else if Ascii.eqb c1 "'" && Ascii.eqb c3 "'" then Some (Z.of_nat (nat_of_ascii c2), r)
      else if Ascii.eqb c1 "\" && Ascii.eqb c2 "u" then
        match hex_val c3 with
        | Some d => Some (read_hex r d)
        | None => None
        end
      else None
  | _ => None
  end.

Definition read_entry (s : string) : option (Z * Z) :=
  match read_rep s with
  | Some (x, EmptyString) => Some (x, x)
  | Some (x, String " " (String "-" (String " " r))) =>
      match read_rep r with
      | Some (y, EmptyString) => Some (x, y)
      | _ => None
      end
  | _ => None
  end.

End Intervals.

(** ** Parse tree lookups ([parseTreeFromPosition], [definitionForContext]) *)
Module ParseTree.
Local Open Scope string_scope.
Local Open Scope Z_scope.

(** The fields of an antlr4 [Token] read here. A character of [text]
    stands for one UTF-16 code unit of the JavaScript string. *)
Record Token := {
  line : Z;
  charPositionInLine : Z;
  startIndex : Z;
  stopIndex : Z;
  text : string
}.

(** A [ParseTree]: a [TerminalNode] wrapping its token, or a
    [ParserRuleContext] with its rule index, its [start] and [stop] tokens
    (possibly [null]) and its children. *)
Inductive PTree :=
| TerminalNode (symbol : Token)
| RuleContext (ruleIndex : nat) (start stop : option Token) (children : list PTree).

(** [token.charPositionInLine + (token.stopIndex - token.startIndex + 1)]. *)
Definition tokenStop (t : Token) : Z :=
  charPositionInLine t + (stopIndex t - startIndex t + 1).

(** The [for (const child of context.children)] loop: the first child
    with a result. *)
Fixpoint first_result {A : Type} (f : PTree -> option A) (l : list PTree) : option A :=
  match l with
  | [] => None
  | child :: rest =>
      match f child with
      | Some result => Some result
      | None => first_result f rest
      end
  end.

(** [parseTreeFromPosition(root, column, row)]; [None] is [undefined]. *)
Fixpoint parseTreeFromPosition (root : PTree) (column row : Z) : option PTree :=
  match root with
  | TerminalNode token =>
      if negb (line token =? row) then None
      else if (charPositionInLine token <=? column) && (column <=? tokenStop token)
      then Some root else None
  | RuleContext _ (Some start) (Some stop) children =>
      if (row <? line start) || ((line start =? row) && (column <? charPositionInLine start))
      then None
      else if (line stop <? row) || ((line stop =? row) && (tokenStop stop <? column))
      then None
      else match first_result (fun child => parseTreeFromPosition child column row) children with
           | Some result => Some result
           | None => Some root
           end
  | RuleContext _ _ _ _ => None
  end.

(** [t] is [root] or lies below it. *)
Inductive subtree (t : PTree) : PTree -> Prop :=
| subtree_refl : subtree t t
| subtree_child i s e ch c : In c ch -> subtree t c -> subtree t (RuleContext i s e ch).

(** [t] contains the position: a terminal on the row whose columns
    [charPositionInLine .. tokenStop] include [column], or a rule context
    whose start token begins at or before the position and whose stop token
    ends at or after it. *)
Definition covers (t : PTree) (column row : Z) : Prop :=
  match t with
  | TerminalNode token =>
      line token = row /\ charPositionInLine token <= column <= tokenStop token
  | RuleContext _ (Some start) (Some stop) _ =>
      (line start < row \/ line start = row /\ charPositionInLine start <= column) /\
      (row < line stop \/ line stop = row /\ column <= tokenStop stop)
  | RuleContext _ _ _ _ => False
  end.

(** [parseTreeFromPosition] together with the [parent] chain of the node
    it returns, nearest first: the search descends from a context into its
    children, so the contexts it passes through are the ancestors of the
    returned node. *)
Fixpoint parseTreeWithParents (root : PTree) (column row : Z)
    : option (PTree * list PTree) :=
  match root with
  | TerminalNode token =>
      if negb (line token =? row) then None
      else if (charPositionInLine token <=? column) && (column <=? tokenStop token)
      then Some (root, []) else None
  | RuleContext _ (Some start) (Some stop) children =>
      if (row <? line start) || ((line start =? row) && (column <? charPositionInLine start))
      then None
      else if (line stop <? row) || ((line stop =? row) && (tokenStop stop <? column))
      then None
      else match first_result (fun child => parseTreeWithParents child column row) children with
           | Some (result, parents) => Some (result, (parents ++ [root])%list)
           | None => Some (root, [])
           end
  | RuleContext _ _ _ _ => None
  end.

(** [RuleContext.ruleIndex]; [undefined] for a terminal. *)
Definition ruleIndexOf (t : PTree) : option nat :=
  match t with
  | RuleContext i _ _ _ => Some i
  | TerminalNode _ => None
  end.

(** [Definition] of the extension's types: the text and its range. *)
Record DefinitionInfo := {
  def_text : string;
  start_column : Z;
  start_row : Z;
  end_column : Z;
  end_row : Z
}.

Definition set_text (d : DefinitionInfo) (t : string) : DefinitionInfo :=
  {| def_text := t; start_column := start_column d; start_row := start_row d;
     end_column := end_column d; end_row := end_row d |}.

Definition is_quote (c : ascii) : bool :=
  Ascii.eqb c (ascii_of_nat 34) || Ascii.eqb c "`" || Ascii.eqb c "'".

(** The last statements of [definitionForContext]: with [keepQuotes]
    unset and a text of at least two characters that starts and ends with
    the same quote character, the text loses its first and last character
    ([substr(1, length - 2)]). *)
Definition strip_quotes (keepQuotes : bool) (result : DefinitionInfo) : DefinitionInfo :=
  let t := def_text result in
  if keepQuotes || (Z.of_nat (String.length t) <? 2) then result
  else match String.get 0 t, String.get (String.length t - 1) t with
       | Some quoteChar, Some last =>
           if is_quote quoteChar && Ascii.eqb quoteChar last
           then set_text result (substring 1 (String.length t - 2) t)
           else result
       | _, _ => result
       end.

Section Definitions.
(** [ANTLRv4Parser.RULE_modeSpec] and [RULE_grammarSpec]. *)
Variables RULE_modeSpec RULE_grammarSpec : nat.
(** [SEMI().symbol] of a mode or grammar spec and
    [grammarType().start] of a grammar spec; [None] when the access
    throws. *)
Variable semiOf : PTree -> option Token.
Variable grammarTypeStartOf : PTree -> option Token.
(** [cs.getText(range)] on the input stream of the context's tokens. *)
Variable getText : Z -> Z -> string.

(** [SourceContext.definitionForContext(ctx, keepQuotes)]. *)
Definition definitionForContext (ctx : option PTree) (keepQuotes : bool)
    : js_result (option DefinitionInfo) :=
  match ctx with
  | None => Returned None
  | Some (TerminalNode symbol) =>
      let t := text symbol in
      Returned (Some (strip_quotes keepQuotes
        {| def_text := t;
           start_column := charPositionInLine symbol; start_row := line symbol;
           end_column := charPositionInLine symbol + Z.of_nat (String.length t);
           end_row := line symbol |}))
  | Some (RuleContext ruleIndex start stop _ as c) =>
      match start, stop with
      | None, _ | _, None => Thrown TypeError   (* [ctx.start.startIndex], [ctx.stop!.stopIndex] *)
      | Some start, Some stop =>
          let rng :=
            if Nat.eqb ruleIndex RULE_modeSpec then
              match semiOf c with
              | None => None
              | Some semi =>
                  Some (startIndex start, stopIndex semi,
                        charPositionInLine start, line start,
                        charPositionInLine semi, line semi)
              end
            else if Nat.eqb ruleIndex RULE_grammarSpec then
              match semiOf c, grammarTypeStartOf c with
              | Some semi, Some gt =>
                  Some (startIndex gt, stopIndex semi,
                        charPositionInLine gt, line gt,
                        charPositionInLine semi, line semi)
              | _, _ => None
              end
            else Some (startIndex start, stopIndex stop,
                       charPositionInLine start, line start,
                       charPositionInLine stop, line stop) in
          match rng with
          | None => Thrown TypeError
          | Some (ra, rb, sc, sr, ec, er) =>
              Returned (Some (strip_quotes keepQuotes
                {| def_text := getText ra rb;
                   start_column := sc; start_row := sr;
                   end_column := ec; end_row := er |}))
          end
      end
  end.

End Definitions.

End ParseTree.

(** ** Interpreter files, diagnostics and lexer actions of a context *)
Module ContextData.
Import ATNGraph Context.
Local Open Scope string_scope.

(** [String.prototype.endsWith(suffix)]. *)
Definition endsWith (s suffix : string) : bool :=
  (String.length suffix <=? String.length s)%nat &&
  String.eqb (substring (String.length s - String.length suffix) (String.length suffix) s) suffix.

Section Files.
(** Node's [path.basename(p, ext)], [path.dirname(p)], [path.join(a, b)],
    [fs.existsSync(p)] and [InterpreterDataReader.parseFile(p)]. *)
Variable basename : string -> string -> string.
Variable dirname : string -> string.
Variable join : string -> string -> string.
Variable existsSync : string -> bool.
Variable parseFile : string -> InterpreterData.

(** The file names chosen by [setupInterpreters(outputDir)]: (lexer file,
    parser file); [""] when the grammar type loads no such file. An empty
    [outputDir] is falsy and selects the grammar's directory. *)
Definition interp_files (fileName : string) (outputDir : option string)
    (type : GrammarType) : string * string :=
  let baseName := if endsWith fileName ".g4" then basename fileName ".g4"
                  else basename fileName ".g" in
  let grammarPath := match outputDir with
                     | Some d => if String.eqb d "" then dirname fileName else d
                     | None => dirname fileName
                     end in
  match type with
  | Combined =>
      let parserFile := join grammarPath baseName ++ ".interp" in
      let baseName := if endsWith baseName "Parser"
                      then substring 0 (String.length baseName - String.length "Parser") baseName
                      else baseName in
      (join grammarPath baseName ++ "Lexer.interp", parserFile)
  | Lexer => (join grammarPath baseName ++ ".interp", "")
  | Parser => ("", join grammarPath baseName ++ ".interp")
  | Unknown => ("", "")
  end.

(** [fs.existsSync(file) ? InterpreterDataReader.parseFile(file) : undefined]. *)
Definition load (file : string) : option InterpreterData :=
  if existsSync file then Some (parseFile file) else None.

(** [setupInterpreters(outputDir)] with the file handling. *)
Definition setupInterpretersFromFiles (fileName : string) (outputDir : option string)
    (c : Ctx) : Ctx :=
  let '(lexerFile, parserFile) := interp_files fileName outputDir (grammarType c) in
  setupInterpreters (load lexerFile) (load parserFile) c.
End Files.

Section Errors.
(** [DiagnosticType.Error]. *)
Variable DiagnosticType_Error : nat.

(** The [hasErrors] getter. *)
Definition hasErrors (c : Ctx) : bool :=
  existsb (fun diagnostic => Nat.eqb (diag_type diagnostic) DiagnosticType_Error)
          (diagnostics c).
End Errors.

(** [LexerActionType.CUSTOM] of antlr4ts. *)
Definition CUSTOM : nat := 1.

(** An antlr4ts [LexerAction]: its [actionType] and, for a custom action,
    its [actionIndex]. *)
Record LexerAction := { actionType : nat; actionIndex : nat }.

(** [SourceContext.lexerActionDescription]. *)
Definition lexerActionDescription : list string :=
  ["Channel action"; ""; "Mode action"; "More action"; "Pop Mode action";
   "Push Mode action"; "Skip action"; "Type action"].

(** [Number.prototype.toString()] of a natural number. *)
Fixpoint string_of_uint (d : Decimal.uint) : string :=
  match d with
  | Decimal.Nil => ""
  | Decimal.D0 r => String "0" (string_of_uint r)
  | Decimal.D1 r => String "1" (string_of_uint r)
  | Decimal.D2 r => String "2" (string_of_uint r)
  | Decimal.D3 r => String "3" (string_of_uint r)
  | Decimal.D4 r => String "4" (string_of_uint r)
  | Decimal.D5 r => String "5" (string_of_uint r)
  | Decimal.D6 r => String "6" (string_of_uint r)
  | Decimal.D7 r => String "7" (string_of_uint r)
  | Decimal.D8 r => String "8" (string_of_uint r)
  | Decimal.D9 r => String "9" (string_of_uint r)
  end.

Definition number_toString (n : nat) : string := string_of_uint (Nat.to_uint n).

(** A string in a string concatenation: [undefined] reads ["undefined"]. *)
Definition js_concat_operand (s : option string) : string :=
  match s with Some t => t | None => "undefined" end.

Section Actions.
(** The fields of a [SymbolInfo] other than [description]. *)
Variable InfoFields : Type.
Record SymbolInfo := { info_fields : InfoFields; description : option string }.

(** [grammarLexerData.atn.lexerActions]. *)
Variable lexerActionsOf : InterpreterData -> list LexerAction.

Definition describe (value : LexerAction) (info : SymbolInfo) : SymbolInfo :=
  {| info_fields := info_fields info;
     description :=
       if Nat.eqb (actionType value) CUSTOM
       then Some (number_toString (actionIndex value + 1) ++ ": "
                  ++ js_concat_operand (description info))
       else nth_error lexerActionDescription (actionType value) |}.

(** [listActions(type)] on the list [actions] the symbol table returns;
    [isLexerType] is [type === CodeActionType.Lexer]. *)
Definition listActions (isLexerType : bool) (c : Ctx) (actions : list SymbolInfo)
    : list SymbolInfo :=
  if isLexerType then
    match grammarLexerData c with
    | Some d =>
        let internalActions := lexerActionsOf d in
        if negb (Nat.eqb (List.length actions) (List.length internalActions)) then []
        else map (fun '(value, info) => describe value info) (combine internalActions actions)
    | None => actions
    end
  else actions.
End Actions.

Section RuleAtPosition.
Import ParseTree.
(** [ANTLRv4Parser.RULE_parserRuleSpec], [RULE_lexerRuleSpec], and the
    texts of [RULE_REF()] and [TOKEN_REF()] of such a context. *)
Variables RULE_parserRuleSpec RULE_lexerRuleSpec : nat.
Variables ruleRefText tokenRefText : PTree -> string.

(** The [while] loop of [ruleFromPosition]: the first context on the
    parent chain that is a parser or lexer rule spec. *)
Fixpoint find_rule_spec (chain : list PTree) : option PTree :=
  match chain with
  | [] => None
  | t :: rest =>
      match ruleIndexOf t with
      | Some i => if Nat.eqb i RULE_parserRuleSpec || Nat.eqb i RULE_lexerRuleSpec
                  then Some t else find_rule_spec rest
      | None => find_rule_spec rest
      end
  end.

(** [ruleFromPosition(column, row)] with [this.tree] = [root]. *)
Definition ruleFromPosition (c : Ctx) (root : PTree) (column row : Z)
    : option string * option nat :=
  match parseTreeWithParents root column row with
  | None => (None, None)
  | Some (tree, parents) =>
      match find_rule_spec (tree :: parents) with
      | None => (None, None)
      | Some context =>
          if match ruleIndexOf context with
             | Some i => Nat.eqb i RULE_parserRuleSpec | None => false end
          then
            let ruleName := ruleRefText context in
            (Some ruleName, match grammarParserData c with
                            | Some _ => map_get (grammarParserRuleMap c) ruleName
                            | None => None
                            end)
          else
            let name := tokenRefText context in
            (Some name, match grammarLexerData c with
                        | Some _ => map_get (grammarLexerRuleMap c) name
                        | None => None
                        end)
      end
  end.
End RuleAtPosition.

End ContextData.

(** * Properties *)

Module MeshFacts.
Import Mesh.

Lemma mutual_pair_builds_cycle :
  exists m1 m2,
    addAsReferenceTo 10 empty_mesh 0 1 = Some m1 /\
    addAsReferenceTo 10 m1 1 0 = Some m2 /\
    refs m2 0 = [1] /\ refs m2 1 = [0].
Proof.
  eexists; eexists; split; [reflexivity|]; split; [reflexivity|].
  split; reflexivity.
Qed.

Section Cycle.
Variable r : nat -> list nat.
Hypothesis r0 : r 0 = [1].
Hypothesis r1 : r 1 = [0].

Lemma walk_cycle_diverges (self : nat) :
  self <> 0 -> self <> 1 ->
  forall fuel, add_walk fuel r self [0] = None /\
               add_walk fuel r self [1] = None.
Proof.
  intros H0 H1 fuel; induction fuel as [|f [IH0 IH1]]; [split; reflexivity|].
  assert (Hc0 : contains [1] self = false)
    by (simpl; rewrite orb_false_r; apply Nat.eqb_neq; assumption).
  assert (Hc1 : contains [0] self = false)
    by (simpl; rewrite orb_false_r; apply Nat.eqb_neq; assumption).
  split; simpl; [rewrite r0, Hc0; exact IH1 | rewrite r1, Hc1; exact IH0].
Qed.

Lemma checked_keeps_tree semanticWalk ruleVisitor (c : Context.Ctx) :
  Context.tree c <> None ->
  exists cx, MeshCount.runSemanticAnalysisChecked semanticWalk ruleVisitor c = (Returned tt, cx) /\
             Context.tree cx = Context.tree c.
Proof.
  intros Ht. unfold MeshCount.runSemanticAnalysisChecked.
  destruct (Context.semanticAnalysisDone c); [eauto|].
  destruct (Context.tree c) eqn:E; [|contradiction].
  eexists; split; [reflexivity|]. unfold Context.runSemanticAnalysisIfNeeded.
  destruct (Context.semanticAnalysisDone c); simpl; [exact E | exact E].
Qed.

Lemma count_cycle_diverges semanticWalk ruleVisitor localCount (s : string) :
  forall fuel (st : MeshCount.store),
    Context.tree (st 0) <> None -> Context.tree (st 1) <> None ->
    MeshCount.getReferenceCount semanticWalk ruleVisitor localCount fuel r st 0 s = None /\
    MeshCount.getReferenceCount semanticWalk ruleVisitor localCount fuel r st 1 s = None.
Proof.
  intros fuel; induction fuel as [|f IH]; intros st H0 H1; [split; reflexivity|].
  destruct (checked_keeps_tree semanticWalk ruleVisitor (st 0) H0) as (c0 & E0 & T0).
  destruct (checked_keeps_tree semanticWalk ruleVisitor (st 1) H1) as (c1 & E1 & T1).
  split; cbn [MeshCount.getReferenceCount]; [rewrite E0, r0 | rewrite E1, r1].
  - destruct (IH (MeshCount.store_upd st 0 c0)) as [_ ->]; [| |reflexivity].
    + unfold MeshCount.store_upd; simpl; rewrite T0; exact H0.
    + unfold MeshCount.store_upd; simpl; exact H1.
  - destruct (IH (MeshCount.store_upd st 1 c1)) as [-> _]; [| |reflexivity].
    + unfold MeshCount.store_upd; simpl; exact H0.
    + unfold MeshCount.store_upd; simpl; rewrite T1; exact H1.
Qed.
End Cycle.

(** C1 (code_bug): after [A.addAsReferenceTo(B)] and
    [B.addAsReferenceTo(A)] on fresh contexts A = 0, B = 1 (both calls
    return and create the mutual edges), the breadth-first walk of
    [D.addAsReferenceTo(A)] for a third context D = 2 never leaves its
    loop: for every bound on the number of iterations it is still running.
    The walk keeps no seen-set, so it cycles through A and B forever. *)
Theorem add_reference_walk_loops_on_mutual_pair :
  exists m1 m2,
    addAsReferenceTo 10 empty_mesh 0 1 = Some m1 /\
    addAsReferenceTo 10 m1 1 0 = Some m2 /\
    forall fuel, addAsReferenceTo fuel m2 2 0 = None.
Proof.
  destruct mutual_pair_builds_cycle as (m1 & m2 & H1 & H2 & R0 & R1).
  exists m1, m2; split; [exact H1|]; split; [exact H2|].
  intros fuel; unfold addAsReferenceTo.
  destruct (walk_cycle_diverges (refs m2) R0 R1 2 ltac:(lia) ltac:(lia) fuel)
    as [-> _].
  reflexivity.
Qed.

(** C2 (code_bug): after [A.addAsReferenceTo(B)] and
    [B.addAsReferenceTo(A)] on fresh contexts A = 0, B = 1,
    [A.getReferenceCount(s)] does not terminate once both contexts have a
    parse tree, whatever the rest of their state, the local counts and the
    symbol: its recursion over [references] alternates between A and B and
    is deeper than every bound. On contexts that were never parsed the call
    instead throws the [TypeError] of A's semantic analysis. *)
Theorem reference_count_diverges_on_mutual_pair :
  exists m1 m2,
    addAsReferenceTo 10 empty_mesh 0 1 = Some m1 /\
    addAsReferenceTo 10 m1 1 0 = Some m2 /\
    (forall semanticWalk ruleVisitor localCount (st : MeshCount.store) s fuel,
       Context.tree (st 0) <> None -> Context.tree (st 1) <> None ->
       MeshCount.getReferenceCount semanticWalk ruleVisitor localCount fuel (refs m2) st 0 s
         = None) /\
    (forall semanticWalk ruleVisitor localCount s fuel, 1 <= fuel ->
       exists st',
         MeshCount.getReferenceCount semanticWalk ruleVisitor localCount fuel (refs m2)
           (fun _ => Context.new_ctx) 0 s = Some (Thrown TypeError, st')).
Proof.
  destruct mutual_pair_builds_cycle as (m1 & m2 & H1 & H2 & R0 & R1).
  exists m1, m2; split; [exact H1|]; split; [exact H2|]. split.
  - intros semanticWalk ruleVisitor localCount st s fuel T0 T1.
    exact (proj1 (count_cycle_diverges (refs m2) R0 R1 semanticWalk ruleVisitor localCount s
                    fuel st T0 T1)).
  - intros semanticWalk ruleVisitor localCount s [|f] Hf; [lia|].
    eexists. reflexivity.
Qed.

End MeshFacts.

Module GlobalFacts.
Import GlobalSymbols.

Lemma first_construction :
  constructor_global initial_table =
    Returned [{| sym_type := BuiltInChannelSymbol; sym_name := "DEFAULT_TOKEN_CHANNEL" |};
              {| sym_type := BuiltInChannelSymbol; sym_name := "HIDDEN" |};
              {| sym_type := BuiltInTokenSymbol; sym_name := "EOF" |};
              {| sym_type := BuiltInModeSymbol; sym_name := "DEFAULT_MODE" |}].
Proof. reflexivity. Qed.

Lemma later_constructions (n : nat) :
  let t := [{| sym_type := BuiltInChannelSymbol; sym_name := "DEFAULT_TOKEN_CHANNEL" |};
            {| sym_type := BuiltInChannelSymbol; sym_name := "HIDDEN" |};
            {| sym_type := BuiltInTokenSymbol; sym_name := "EOF" |};
            {| sym_type := BuiltInModeSymbol; sym_name := "DEFAULT_MODE" |}] in
  construct_n n t = Returned t.
Proof.
  intros t; induction n as [|n IH]; [reflexivity|].
  simpl. exact IH.
Qed.

(** C8: however many source contexts are constructed (n + 1 >= 1), the
    global table ends up holding exactly the four built-ins, each name
    defined once; none of the constructions raises, and [resolve] on the
    table finds each of the four names. *)
Theorem global_builtins_defined_once (n : nat) :
  exists t,
    construct_n (S n) initial_table = Returned t /\
    t = [{| sym_type := BuiltInChannelSymbol; sym_name := "DEFAULT_TOKEN_CHANNEL" |};
         {| sym_type := BuiltInChannelSymbol; sym_name := "HIDDEN" |};
         {| sym_type := BuiltInTokenSymbol; sym_name := "EOF" |};
         {| sym_type := BuiltInModeSymbol; sym_name := "DEFAULT_MODE" |}] /\
    forall name, In name ["DEFAULT_TOKEN_CHANNEL"; "HIDDEN"; "EOF"; "DEFAULT_MODE"]%string ->
      count_name t name = 1 /\
      exists s, resolve t name = Some s /\ sym_name s = name.
Proof.
  eexists; split; [|split; [reflexivity|]].
  - change (construct_n (S n) initial_table)
      with (bind_js (constructor_global initial_table) (construct_n n)).
    rewrite first_construction.
    apply later_constructions.
  - intros name Hin; simpl in Hin.
    destruct Hin as [<-|[<-|[<-|[<-|[]]]]]; split; try reflexivity;
      eexists; split; reflexivity.
Qed.

End GlobalFacts.

Module EntryFacts.
Import ATNGraph Context Interp.

(** C10: [getATNGraph("")] throws a [TypeError] (it reads
    [toUpperCase] of [rule[0] === undefined]); for a non-empty name the
    lexer/parser test and the map lookups do not throw, and missing
    interpreter data or a missing rule yields [undefined]. *)
Theorem getATNGraph_rule_name_totality
    (toUpperCase : string -> string) (labelsOf : bool -> Transition -> list string)
    (fuel : nat) (c : Ctx) (rule : string) :
  (rule = EmptyString ->
     getATNGraph toUpperCase labelsOf fuel c rule = Some (Thrown TypeError)) /\
  (rule <> EmptyString ->
     (exists b, isLexerRuleName toUpperCase rule = Returned b) /\
     (forall e, atn_graph_entry toUpperCase c rule <> Thrown e) /\
     (forall b, isLexerRuleName toUpperCase rule = Returned b ->
        (if b then grammarLexerData c else grammarParserData c) = None \/
        map_get (if b then grammarLexerRuleMap c else grammarParserRuleMap c) rule = None ->
        getATNGraph toUpperCase labelsOf fuel c rule = Some (Returned None))).
Proof.
  split.
  - intros ->; reflexivity.
  - intros Hne; destruct rule as [|ch rest]; [congruence|].
    split; [eexists; reflexivity|]; split.
    + intros e; unfold atn_graph_entry, isLexerRuleName; simpl.
      repeat match goal with
             | |- context [match ?x with _ => _ end] => destruct x
             end; discriminate.
    + intros b Hb Hmiss; unfold getATNGraph, atn_graph_entry; rewrite Hb.
      destruct b; destruct Hmiss as [Hd|Hm].
      * rewrite Hd; reflexivity.
      * destruct (grammarLexerData c); [|reflexivity]; rewrite Hm; reflexivity.
      * rewrite Hd; reflexivity.
      * destruct (grammarParserData c); [|reflexivity]; rewrite Hm; reflexivity.
Qed.

Lemma getATNGraph_rule_name_totality_witness :
  ("r"%string <> EmptyString) /\
  getATNGraph (fun s => s) (fun _ _ => []) 0 new_ctx "r" = Some (Returned None).
Proof.
  split; [discriminate|].
  destruct (getATNGraph_rule_name_totality (fun s => s) (fun _ _ => []) 0 new_ctx "r")
    as [_ H].
  destruct (H ltac:(discriminate)) as [_ [_ H3]].
  apply (H3 true); [reflexivity | left; reflexivity].
Defined.

End EntryFacts.

Module ParseFacts.
Import ATNGraph Context.

Section Parse.
Variable grammarSpec : ErrorStrategy -> PredictionMode -> nat -> ParseOutcome.
Variable grammarTypeOf : Tree -> option GrammarType.
Variable detailsWalk : option Tree -> list string * list string.
Variable getUnreferencedSymbols : list string -> list string.

Variable semanticWalk : option Tree -> list string -> list Diag.
Variable ruleVisitor : option Tree -> list (string * string).

Let parse_ := parse grammarSpec grammarTypeOf detailsWalk getUnreferencedSymbols.
Let ops := run_ops grammarSpec grammarTypeOf detailsWalk getUnreferencedSymbols
             semanticWalk ruleVisitor.

Lemma parse_leaves_no_data (c : Ctx) :
  grammarLexerData (fst (fst (parse_ c))) = None /\
  grammarParserData (fst (fst (parse_ c))) = None.
Proof.
  unfold parse_, parse; simpl.
  destruct (out_result (grammarSpec BailErrorStrategy SLL 0)) as [t|[|k]]; simpl.
  - unfold parse_finish; destruct (detailsWalk (Some t)); split; reflexivity.
  - destruct (out_result (grammarSpec DefaultErrorStrategy LL 0)) as [t|e]; simpl;
      [unfold parse_finish; destruct (detailsWalk (Some t))|]; split; reflexivity.
  - split; reflexivity.
Qed.

Lemma ops_keep_no_data (l : list Op) (c : Ctx) :
  grammarLexerData c = None -> grammarParserData c = None ->
  grammarLexerData (ops c l) = None /\ grammarParserData (ops c l) = None.
Proof.
  unfold ops, run_ops. revert c; induction l as [|o l IH]; intros c Hl Hp; [auto|].
  simpl. apply IH; destruct o; simpl;
    try exact (proj1 (parse_leaves_no_data c)); try exact (proj2 (parse_leaves_no_data c));
    unfold runSemanticAnalysisIfNeeded; destruct (semanticAnalysisDone c); assumption.
Qed.

(** C4: the fast attempt (bail strategy, SLL) runs first from token 0;
    exactly when it throws a [ParseCancellationException] the stream is
    rewound to 0 and one more run with the default strategy and LL
    follows; any other exception of the fast run, and any exception of
    the second run, escapes [parse]. *)
Theorem parse_two_stage_fallback (c : Ctx) :
  let '(c', res, log) := parse_ c in
  match out_result (grammarSpec BailErrorStrategy SLL 0) with
  | inl _ => log = [(BailErrorStrategy, SLL, 0)] /\ res = inl (imports c')
  | inr ParseCancellationException =>
      log = [(BailErrorStrategy, SLL, 0); (DefaultErrorStrategy, LL, 0)] /\
      match out_result (grammarSpec DefaultErrorStrategy LL 0) with
      | inl _ => res = inl (imports c')
      | inr e => res = inr e
      end
  | inr e => log = [(BailErrorStrategy, SLL, 0)] /\ res = inr e
  end.
Proof.
  unfold parse_, parse; simpl.
  destruct (out_result (grammarSpec BailErrorStrategy SLL 0)) as [t|[|k]];
    simpl; [split; reflexivity| |split; reflexivity].
  destruct (out_result (grammarSpec DefaultErrorStrategy LL 0)) as [t|e];
    simpl; split; reflexivity.
Qed.

Lemma parse_resets_fields (c : Ctx) :
  let '(c', res, log) := parse_ c in
  diagnostics c' =
    List.concat (List.map (fun '(es, pm, p) => out_diags (grammarSpec es pm p)) log) /\
  semanticAnalysisDone c' = false /\
  symbols c' = match res with
               | inl _ => fst (detailsWalk (tree c'))
               | inr _ => []
               end /\
  symbolDeps c' = [global_table_id] /\
  grammarLexerRuleMap c' = [] /\
  grammarLexerData c' = None /\
  grammarParserData c' = None.
Proof.
  unfold parse_, parse; simpl.
  destruct (out_result (grammarSpec BailErrorStrategy SLL 0)) as [t|[|k]]; simpl.
  - unfold parse_finish; simpl.
    destruct (detailsWalk (Some t)) as [syms imps] eqn:Hd; simpl.
    rewrite Hd, app_nil_r; repeat split; reflexivity.
  - destruct (out_result (grammarSpec DefaultErrorStrategy LL 0)) as [t|e]; simpl.
    + unfold parse_finish; simpl.
      destruct (detailsWalk (Some t)) as [syms imps] eqn:Hd; simpl.
      rewrite Hd, app_nil_r; repeat split; reflexivity.
    + rewrite app_nil_r; repeat split; reflexivity.
  - rewrite app_nil_r; repeat split; reflexivity.
Qed.

(** C3 (amended): every [parse] clears the diagnostics (afterwards they
    are exactly those reported by this parse's runs of [grammarSpec]),
    resets the semantic-analysis flag, clears the symbol table (its
    symbols are those of the new details walk, none when [parse] throws;
    its only dependency is the global table), clears the lexer rule map,
    and discards the interpreter data: [grammarLexerData] and
    [grammarParserData] are undefined afterwards, whatever they were.
    They stay undefined through any later sequence of parses and semantic
    queries ([getDiagnostics], [getReferenceGraph], [getRRDScript],
    [getReferenceCount]), and [setupInterpreters] makes the data it loads
    available again (in the class only [parse] and [setupInterpreters]
    assign these fields). *)
Theorem parse_resets_state_and_discards_interpreter_data (c : Ctx) :
  let '(c', res, log) := parse_ c in
  diagnostics c' =
    List.concat (List.map (fun '(es, pm, p) => out_diags (grammarSpec es pm p)) log) /\
  semanticAnalysisDone c' = false /\
  symbols c' = match res with
               | inl _ => fst (detailsWalk (tree c'))
               | inr _ => []
               end /\
  symbolDeps c' = [global_table_id] /\
  grammarLexerRuleMap c' = [] /\
  grammarLexerData c' = None /\
  grammarParserData c' = None /\
  (forall l : list Op,
     grammarLexerData (ops c' l) = None /\ grammarParserData (ops c' l) = None) /\
  (forall lexerFile parserFile : option InterpreterData,
     grammarLexerData (setupInterpreters lexerFile parserFile c') = lexerFile /\
     grammarParserData (setupInterpreters lexerFile parserFile c') = parserFile).
Proof.
  pose proof (parse_resets_fields c) as Hc.
  destruct (parse_ c) as [[c' res] log].
  destruct Hc as (H1 & H2 & H3 & H4 & H5 & H6 & H7).
  repeat (split; [assumption|]).
  split; [intros l; exact (ops_keep_no_data l c' H6 H7)|].
  intros lexerFile parserFile; split; reflexivity.
Qed.

End Parse.

End ParseFacts.

Module ParseCounterexamples.
Import ATNGraph Context.

(** C3 (counterexample): interpreter data loaded by [setupInterpreters]
    does not survive the next [parse]: [grammarLexerData] is reset to
    undefined. *)
Lemma parse_discards_loaded_lexer_data :
  let d0 := {| atn := {| stateType := fun _ => 0; transitions := fun _ => [];
                         stateRule := fun _ => 0; ruleToStartState := [];
                         ruleToStopState := [] |};
               ruleNames := [] |} in
  let loaded := setupInterpreters (Some d0) None new_ctx in
  grammarLexerData loaded = Some d0 /\
  grammarLexerData
    (fst (fst (parse (fun _ _ _ => {| out_result := inl {| tree_id := 0; childCount := 0 |};
                                      out_diags := []; out_end := 0 |})
                     (fun _ => None) (fun _ => ([], [])) (fun l => l) loaded))) = None.
Proof. split; reflexivity. Qed.

End ParseCounterexamples.

Module GenerationFacts.
Import ATNGraph Context Interp.

Section Loop.
Variable generate : nat -> string + Exn.



End Loop.




End GenerationFacts.

Module SemanticFacts.
Import ATNGraph Context.

Section Memo.
Variable grammarSpec : ErrorStrategy -> PredictionMode -> nat -> ParseOutcome.
Variable grammarTypeOf : Tree -> option GrammarType.
Variable detailsWalk : option Tree -> list string * list string.
Variable getUnreferencedSymbols : list string -> list string.
Variable semanticWalk : option Tree -> list string -> list Diag.
Variable ruleVisitor : option Tree -> list (string * string).

Let op := run_op grammarSpec grammarTypeOf detailsWalk getUnreferencedSymbols
            semanticWalk ruleVisitor.
Let ops := run_ops grammarSpec grammarTypeOf detailsWalk getUnreferencedSymbols
             semanticWalk ruleVisitor.

Lemma query_after_analysis (c : Ctx) (q : Op) :
  semanticAnalysisDone c = true -> is_query q = true -> op c q = c.
Proof.
  intros Hd Hq; destruct q; try discriminate;
    unfold op, run_op, runSemanticAnalysisIfNeeded; rewrite Hd; reflexivity.
Qed.

Lemma queries_after_analysis (qs : list Op) (c : Ctx) :
  semanticAnalysisDone c = true -> forallb is_query qs = true -> ops c qs = c.
Proof.
  revert c; induction qs as [|q qs IH]; intros c Hd Hq; [reflexivity|].
  simpl in Hq; apply andb_prop in Hq; destruct Hq as [Hq Hqs].
  unfold ops; simpl; fold (op c q).
  rewrite (query_after_analysis c q Hd Hq). apply IH; assumption.
Qed.

(** C9 (amended): after a parse the flag is reset; the first of
    [getDiagnostics], [getReferenceGraph], [getRRDScript] and
    [getReferenceCount] runs the semantic walk exactly once, appending its
    findings after the diagnostics of the parse (which are kept), and
    every later such call before the next parse leaves the context
    unchanged. *)
Theorem semantic_pass_once_per_parse (c : Ctx) (q : Op) (qs : list Op) :
  is_query q = true -> forallb is_query qs = true ->
  let c1 := op c DoParse in
  semanticAnalysisDone c1 = false /\
  op c1 q = runSemanticAnalysisIfNeeded semanticWalk ruleVisitor c1 /\
  ops c1 (q :: qs) = op c1 q /\
  semanticWalks (op c1 q) = S (semanticWalks c1) /\
  diagnostics (op c1 q) = diagnostics c1 ++ semanticWalk (tree c1) (symbols c1) /\
  semanticAnalysisDone (op c1 q) = true.
Proof.
  intros Hq Hqs c1.
  assert (Hreset : semanticAnalysisDone c1 = false).
  { unfold c1, op, run_op.
    pose proof (ParseFacts.parse_resets_fields
                  grammarSpec grammarTypeOf detailsWalk getUnreferencedSymbols c) as H.
    destruct (parse grammarSpec grammarTypeOf detailsWalk getUnreferencedSymbols c)
      as [[c' res] log]; simpl; tauto. }
  assert (Hfirst : op c1 q = runSemanticAnalysisIfNeeded semanticWalk ruleVisitor c1)
    by (destruct q; try discriminate; reflexivity).
  split; [exact Hreset|]; split; [exact Hfirst|].
  split.
  { unfold ops; simpl; fold (op c1 q).
    apply queries_after_analysis; [|exact Hqs].
    rewrite Hfirst; unfold runSemanticAnalysisIfNeeded; rewrite Hreset; reflexivity. }
  rewrite Hfirst; unfold runSemanticAnalysisIfNeeded; rewrite Hreset.
  split; [reflexivity|]; split; reflexivity.
Qed.
End Memo.

Lemma semantic_pass_once_per_parse_witness :
  is_query GetDiagnostics = true /\ forallb is_query [GetRRDScript "r"; GetReferenceGraph] = true /\
  semanticWalks
    (run_ops (fun _ _ _ => {| out_result := inl {| tree_id := 0; childCount := 0 |};
                             out_diags := []; out_end := 0 |})
             (fun _ => None) (fun _ => ([], [])) (fun l => l) (fun _ _ => []) (fun _ => [])
             new_ctx [DoParse; GetDiagnostics; GetRRDScript "r"; GetReferenceGraph]) = 1.
Proof.
  split; [reflexivity|]; split; [reflexivity|].
  destruct (semantic_pass_once_per_parse
              (fun _ _ _ => {| out_result := inl {| tree_id := 0; childCount := 0 |};
                               out_diags := []; out_end := 0 |})
              (fun _ => None) (fun _ => ([], [])) (fun l => l) (fun _ _ => []) (fun _ => [])
              new_ctx GetDiagnostics [GetRRDScript "r"; GetReferenceGraph] eq_refl eq_refl)
    as (_ & _ & H3 & H4 & _).
  change (semanticWalks
    (run_ops (fun _ _ _ => {| out_result := inl {| tree_id := 0; childCount := 0 |};
                             out_diags := []; out_end := 0 |})
             (fun _ => None) (fun _ => ([], [])) (fun l => l) (fun _ _ => []) (fun _ => [])
             (run_op (fun _ _ _ => {| out_result := inl {| tree_id := 0; childCount := 0 |};
                             out_diags := []; out_end := 0 |})
             (fun _ => None) (fun _ => ([], [])) (fun l => l) (fun _ _ => []) (fun _ => [])
             new_ctx DoParse) [GetDiagnostics; GetRRDScript "r"; GetReferenceGraph]) = 1).
  rewrite H3, H4; reflexivity.
Defined.

(** C9 (counterexample): after a parse, a [getReferenceCount] call runs
    the semantic walk, so the following [getDiagnostics] - the first call
    among [getDiagnostics], [getReferenceGraph] and [getRRDScript] after
    the parse - performs no walk. *)
Lemma first_listed_query_may_not_walk :
  let gs := fun (_ : ErrorStrategy) (_ : PredictionMode) (_ : nat) =>
              {| out_result := inl {| tree_id := 0; childCount := 0 |};
                 out_diags := []; out_end := 0 |} in
  let step := run_op gs (fun _ => None) (fun _ => ([], [])) (fun l => l)
                (fun _ _ => []) (fun _ => []) in
  let c1 := step new_ctx DoParse in
  let c2 := step c1 (GetReferenceCount "r") in
  let c3 := step c2 GetDiagnostics in
  semanticWalks c1 = 0 /\ semanticWalks c2 = 1 /\ semanticWalks c3 = 1.
Proof. repeat split; reflexivity. Qed.

End SemanticFacts.

Module ATNGraphFacts.
Import ATNGraph.

Section Extraction.
Variable a : ATN.
Variable names : list string.
Variable stopState : option nat.
Variable labelsOf : Transition -> list string.


Lemma ensure_found g id st i :
  index_get (stateToIndex g) id = Some i -> ensureATNNode a names id st g = (i, g).
Proof. intros H. unfold ensureATNNode. rewrite H. reflexivity. Qed.

Lemma ensure_new g id st :
  index_get (stateToIndex g) id = None ->
  ensureATNNode a names id st g =
  (List.length (nodes g),
   {| pipeline := pipeline g; seenStates := seenStates g;
      stateToIndex := (if calling a st then [(marker_of a st, S (List.length (nodes g)))] else [])
                      ++ (id, List.length (nodes g)) :: stateToIndex g;
      nodes := nodes g ++ own_node a id st
               :: (if calling a st then [rule_node a names (currentRuleIndex g) st] else []);
      links := links g;
      currentRuleIndex := if calling a st then (currentRuleIndex g - 1)%Z else currentRuleIndex g;
      expanded := expanded g |}).
Proof.
  intros H. unfold ensureATNNode, calling, marker_of, rule_node, own_node, target_of.
  rewrite H. destruct (transitions a st) as [|t [|t' l]]; try reflexivity.
  destruct (is_rule_start a (tr_target t)); try reflexivity.
  rewrite <- app_assoc, length_app, Nat.add_comm. reflexivity.
Qed.






Lemma has_cons m k k' v : has ((k', v) :: m) k = Nat.eqb k k' || has m k.
Proof. unfold has. simpl. destruct (Nat.eqb k k'); reflexivity. Qed.

Lemma incl_keys_refl m : incl_keys m m.
Proof. intros k H. exact H. Qed.

Lemma incl_keys_trans m1 m2 m3 : incl_keys m1 m2 -> incl_keys m2 m3 -> incl_keys m1 m3.
Proof. intros H1 H2 k H. apply H2, H1, H. Qed.

Lemma paid_mono m m' x : incl_keys m m' -> paid a m x = true -> paid a m' x = true.
Proof.
  unfold paid. intros Hi H. apply andb_true_iff in H as [H1 H2].
  rewrite (Hi _ H1). simpl. apply orb_true_iff in H2 as [H2 | H2].
  - rewrite H2. reflexivity.
  - rewrite (Hi _ H2), orb_true_r. reflexivity.
Qed.

Lemma filter_paid_mono m m' l : incl_keys m m' ->
  List.length (filter (paid a m) l) <= List.length (filter (paid a m') l).
Proof.
  intros Hi. induction l as [|x l IH]; simpl; [lia|].
  destruct (paid a m x) eqn:E.
  - rewrite (paid_mono m m' x Hi E). simpl. lia.
  - destruct (paid a m' x); simpl; lia.
Qed.

Lemma slack_mono m m' x : incl_keys m m' ->
  (if paid a m' x then 0 else 1) <= (if paid a m x then 0 else 1).
Proof.
  intros Hi. destruct (paid a m x) eqn:E.
  - rewrite (paid_mono m m' x Hi E). lia.
  - destruct (paid a m' x); lia.
Qed.

Lemma filter_snoc (f : nat -> bool) l x :
  List.length (filter f (l ++ [x])) = List.length (filter f l) + (if f x then 1 else 0).
Proof. rewrite filter_app, length_app. simpl. destruct (f x); reflexivity. Qed.

Lemma count_synthetic_app l1 l2 :
  count_synthetic (l1 ++ l2) = count_synthetic l1 + count_synthetic l2.
Proof. unfold count_synthetic. rewrite filter_app, length_app. reflexivity. Qed.

Lemma existsb_eqb_in x l : existsb (Nat.eqb x) l = true <-> In x l.
Proof.
  rewrite existsb_exists. split.
  - intros [y [Hy E]]. apply Nat.eqb_eq in E. subst. exact Hy.
  - intros H. exists x. split; [exact H | apply Nat.eqb_refl].
Qed.

Lemma ensure_spec g id st :
  let r := ensureATNNode a names id st g in
  pipeline (snd r) = pipeline g /\ seenStates (snd r) = seenStates g /\
  links (snd r) = links g /\ expanded (snd r) = expanded g /\
  incl_keys (stateToIndex g) (stateToIndex (snd r)) /\
  has (stateToIndex (snd r)) id = true /\
  ((has (stateToIndex g) id = true /\ nodes (snd r) = nodes g) \/
   (has (stateToIndex g) id = false /\
    List.length (nodes (snd r)) = List.length (nodes g) + 1 + (if calling a st then 1 else 0) /\
    count_synthetic (nodes (snd r)) >= count_synthetic (nodes g) + (if calling a st then 1 else 0) /\
    (calling a st = true -> has (stateToIndex (snd r)) (marker_of a st) = true))).
Proof.
  cbv zeta. destruct (index_get (stateToIndex g) id) as [i|] eqn:E.
  - rewrite (ensure_found g id st i E). simpl.
    assert (Hh : has (stateToIndex g) id = true) by (unfold has; rewrite E; reflexivity).
    repeat split; try reflexivity; try exact Hh; try apply incl_keys_refl. left; split; auto.
  - rewrite (ensure_new g id st E). simpl.
    assert (Hh : has (stateToIndex g) id = false) by (unfold has; rewrite E; reflexivity).
    repeat split; try reflexivity.
    + intros k Hk. destruct (calling a st); simpl; rewrite ?has_cons, Hk, ?orb_true_r; reflexivity.
    + destruct (calling a st); simpl; rewrite ?has_cons, Nat.eqb_refl, ?orb_true_r; reflexivity.
    + right. split; [exact Hh|]. split; [|split].
      * rewrite length_app. destruct (calling a st); simpl; lia.
      * rewrite count_synthetic_app. destruct (calling a st); unfold count_synthetic; simpl;
          destruct (Nat.eqb _ 13); simpl; lia.
      * intros Hc. rewrite Hc. simpl. rewrite has_cons, Nat.eqb_refl. reflexivity.
Qed.


Lemma nodup_snoc (l : list nat) x : NoDup l -> ~ In x l -> NoDup (l ++ [x]).
Proof.
  intros H1 H2. apply (Permutation_NoDup (l := x :: l)).
  - apply Permutation_cons_append.
  - constructor; assumption.
Qed.

Lemma process_inv start s i g tr :
  rule_calls_alone_from a stopState start -> In tr (transitions a s) -> reachable a stopState start s ->
  inv_within a stopState start s g ->
  inv_within a stopState start s (process_transition a names stopState labelsOf s i g tr).
Proof.
  intros W Htr Hrs Inv. unfold process_transition.
  destruct (is_stop stopState s) eqn:Hstop; [exact Inv|].
  destruct Inv as (Sg & Nd & Hk & Hs & B & R).
  destruct (is_rule_start a (tr_target tr)) eqn:Hr; cbn beta iota zeta.
  - (* a rule transition *)
    assert (Hone := W s tr Hrs Htr Hr).
    assert (Hcall : calling a s = true) by (unfold calling; rewrite Hone; exact Hr).
    assert (Hmk : marker_of a s = tr_target tr * s)
      by (unfold marker_of, target_of; rewrite Hone; apply Nat.mul_comm).
    destruct (ensureATNNode a names (tr_target tr * s) (tr_target tr) g) as [ti g1] eqn:E1.
    pose proof (ensure_spec g (tr_target tr * s) (tr_target tr)) as S1.
    rewrite E1 in S1. cbv zeta in S1. simpl snd in S1.
    destruct S1 as (P1 & Se1 & L1 & X1 & I1 & H1 & C1).
    match goal with |- context [ensureATNNode a names (tr_follow tr) (tr_follow tr) ?G] =>
      destruct (ensureATNNode a names (tr_follow tr) (tr_follow tr) G) as [ri g3] eqn:E2;
      pose proof (ensure_spec G (tr_follow tr) (tr_follow tr)) as S2; rewrite E2 in S2 end.
    cbv zeta in S2. simpl in S2.
    destruct S2 as (P2 & Se2 & L2 & X2 & I2 & H2 & C2).
    assert (Hks : has (stateToIndex g) s = true)
      by (apply Hk; rewrite Sg; apply in_or_app; left; exact Hs).
    assert (Hps3 : paid a (stateToIndex g3) s = true).
    { unfold paid. rewrite (I2 _ (I1 _ Hks)), Hcall, Hmk, (I2 _ H1). reflexivity. }
    assert (B1 : List.length (nodes g1) <= List.length (expanded g)
               + List.length (filter (paid a (stateToIndex g)) (pipeline g)) + count_synthetic (nodes g1)).
    { destruct C1 as [[Hh Hn] | (Hh & Hl & Hc & _)].
      - assert (paid a (stateToIndex g) s = true)
          by (unfold paid; rewrite Hks, Hcall, Hmk, Hh; reflexivity).
        rewrite Hn. destruct (paid a (stateToIndex g) s); [lia | discriminate].
      - assert (paid a (stateToIndex g) s = false)
          by (unfold paid; rewrite Hks, Hcall, Hmk, Hh; reflexivity).
        destruct (paid a (stateToIndex g) s); [discriminate|]. lia. }
    pose proof (filter_paid_mono _ _ (pipeline g) (incl_keys_trans _ _ _ I1 I2)) as FM.
    cbn beta iota zeta.
    cbn [seenStates add_link]. rewrite Se2, Se1.
    destruct (existsb (Nat.eqb (tr_follow tr)) (seenStates g)) eqn:Ex;
      unfold inv_within; simpl; rewrite ?Se2, ?Se1, ?P2, ?P1, ?X2, ?X1, ?Hps3.
    + (* the follow state was seen already *)
      destruct C2 as [[Hh Hn] | (Hh & _)].
      * split; [exact Sg|]. split; [exact Nd|]. split.
        { intros x Hx. apply I2, I1, Hk, Hx. }
        split; [exact Hs|]. split; [rewrite Hn; lia | exact R].
      * exfalso. apply existsb_eqb_in in Ex. rewrite (I1 _ (Hk _ Ex)) in Hh. discriminate.
    + (* the follow state enters the pipeline *)
      assert (Hnf : ~ In (tr_follow tr) (seenStates g)).
      { intros Hin. apply existsb_eqb_in in Hin. rewrite Hin in Ex. discriminate. }
      split; [rewrite Sg, app_assoc; reflexivity|].
      split; [apply nodup_snoc; assumption|].
      split.
      { intros x Hx. apply in_app_or in Hx as [Hx | [<- | []]].
        - apply I2, I1, Hk, Hx.
        - exact H2. }
      split; [exact Hs|]. split.
      { rewrite filter_snoc. destruct C2 as [[Hh Hn] | (Hh & Hl & Hc & Hm)].
        - rewrite Hn. lia.
        - assert (paid a (stateToIndex g3) (tr_follow tr) = true).
          { unfold paid. rewrite H2. simpl.
            destruct (calling a (tr_follow tr)) eqn:Cf; simpl; [apply Hm; reflexivity | reflexivity]. }
          rewrite H. lia. }
      intros x Hx. apply in_app_or in Hx as [Hx | [<- | []]]; [exact (R x Hx)|].
      assert (Hn : next_state a tr = tr_follow tr) by (unfold next_state; rewrite Hr; reflexivity).
      split.
      * rewrite <- Hn. exact (reach_step a stopState start s tr Hrs Hstop Htr).
      * right. exists s, tr. repeat split; assumption.
  - (* an ordinary transition *)
    rewrite Nat.mul_1_r.
    destruct (ensureATNNode a names (tr_target tr) (tr_target tr) g) as [ti g1] eqn:E1.
    pose proof (ensure_spec g (tr_target tr) (tr_target tr)) as S1.
    rewrite E1 in S1. cbv zeta in S1. simpl snd in S1.
    destruct S1 as (P1 & Se1 & L1 & X1 & I1 & H1 & C1).
    pose proof (filter_paid_mono _ _ (pipeline g) I1) as FM.
    pose proof (slack_mono _ _ s I1) as SM.
    cbn [seenStates add_link]. rewrite Se1.
    destruct (existsb (Nat.eqb (tr_target tr)) (seenStates g)) eqn:Ex;
      unfold inv_within; simpl; rewrite ?Se1, ?P1, ?X1.
    + destruct C1 as [[Hh Hn] | (Hh & _)].
      * split; [exact Sg|]. split; [exact Nd|]. split.
        { intros x Hx. apply I1, Hk, Hx. }
        split; [exact Hs|]. split; [rewrite Hn; lia | exact R].
      * exfalso. apply existsb_eqb_in in Ex. rewrite (Hk _ Ex) in Hh. discriminate.
    + assert (Hnf : ~ In (tr_target tr) (seenStates g)).
      { intros Hin. apply existsb_eqb_in in Hin. rewrite Hin in Ex. discriminate. }
      split; [rewrite Sg, app_assoc; reflexivity|].
      split; [apply nodup_snoc; assumption|].
      split.
      { intros x Hx. apply in_app_or in Hx as [Hx | [<- | []]].
        - apply I1, Hk, Hx.
        - exact H1. }
      split; [exact Hs|]. split.
      { rewrite filter_snoc. destruct C1 as [[Hh Hn] | (Hh & Hl & Hc & Hm)].
        - rewrite Hn. lia.
        - assert (paid a (stateToIndex g1) (tr_target tr) = true).
          { unfold paid. rewrite H1. simpl.
            destruct (calling a (tr_target tr)) eqn:Cf; simpl; [apply Hm; reflexivity | reflexivity]. }
          rewrite H. lia. }
      intros x Hx. apply in_app_or in Hx as [Hx | [<- | []]]; [exact (R x Hx)|].
      assert (Hn : next_state a tr = tr_target tr) by (unfold next_state; rewrite Hr; reflexivity).
      split.
      * rewrite <- Hn. exact (reach_step a stopState start s tr Hrs Hstop Htr).
      * right. exists s, tr. repeat split; assumption.
Qed.

Lemma process_links s i g tr :
  expanded (process_transition a names stopState labelsOf s i g tr) = expanded g /\
  List.length (links (process_transition a names stopState labelsOf s i g tr)) =
  List.length (links g) +
  (if is_stop stopState s then 0 else if is_rule_start a (tr_target tr) then 2 else 1).
Proof.
  unfold process_transition.
  destruct (is_stop stopState s) eqn:Hstop; [split; [reflexivity | lia]|].
  destruct (is_rule_start a (tr_target tr)) eqn:Hr; cbn beta iota zeta.
  - destruct (ensureATNNode a names (tr_target tr * s) (tr_target tr) g) as [ti g1] eqn:E1.
    pose proof (ensure_spec g (tr_target tr * s) (tr_target tr)) as S1.
    rewrite E1 in S1. cbv zeta in S1. simpl snd in S1.
    destruct S1 as (P1 & Se1 & L1 & X1 & _).
    match goal with |- context [ensureATNNode a names (tr_follow tr) (tr_follow tr) ?G] =>
      destruct (ensureATNNode a names (tr_follow tr) (tr_follow tr) G) as [ri g3] eqn:E2;
      pose proof (ensure_spec G (tr_follow tr) (tr_follow tr)) as S2; rewrite E2 in S2 end.
    cbv zeta in S2. simpl in S2. destruct S2 as (P2 & Se2 & L2 & X2 & _).
    cbn beta iota zeta.
    destruct (existsb _ _); simpl; rewrite X2, X1, !length_app, L2, length_app, L1;
      simpl; split; [reflexivity | lia | reflexivity | lia].
  - destruct (ensureATNNode a names (tr_target tr * 1) (tr_target tr) g) as [ti g1] eqn:E1.
    pose proof (ensure_spec g (tr_target tr * 1) (tr_target tr)) as S1.
    rewrite E1 in S1. cbv zeta in S1. simpl snd in S1.
    destruct S1 as (P1 & Se1 & L1 & X1 & _).
    destruct (existsb _ _); simpl; rewrite X1, length_app, L1;
      simpl; split; [reflexivity | lia | reflexivity | lia].
Qed.

Lemma fold_inv start s i l g :
  rule_calls_alone_from a stopState start -> reachable a stopState start s ->
  (forall tr, In tr l -> In tr (transitions a s)) ->
  inv_within a stopState start s g ->
  inv_within a stopState start s (fold_left (process_transition a names stopState labelsOf s i) l g).
Proof.
  intros W Hrs. revert g. induction l as [|tr l IH]; intros g Hl Inv; simpl; [exact Inv|].
  apply IH; [intros t Ht; apply Hl; right; exact Ht|].
  apply process_inv; [exact W | apply Hl; left; reflexivity | exact Hrs | exact Inv].
Qed.

Lemma fold_links s i l g :
  expanded (fold_left (process_transition a names stopState labelsOf s i) l g) = expanded g /\
  List.length (links (fold_left (process_transition a names stopState labelsOf s i) l g)) =
  List.length (links g) +
  (if is_stop stopState s then 0
   else list_sum (List.map (fun tr => if is_rule_start a (tr_target tr) then 2 else 1) l)).
Proof.
  revert g. induction l as [|tr l IH]; intros g; simpl.
  - destruct (is_stop stopState s); split; reflexivity || lia.
  - destruct (IH (process_transition a names stopState labelsOf s i g tr)) as [IH1 IH2].
    destruct (process_links s i g tr) as [P1 P2].
    rewrite IH1, P1, IH2, P2. split; [reflexivity|].
    destruct (is_stop stopState s); [lia|]. unfold list_sum at 2. simpl. fold (list_sum
      (List.map (fun tr => if is_rule_start a (tr_target tr) then 2 else 1) l)). lia.
Qed.

Lemma origin_mono start ex ex' x :
  (forall y, In y ex -> In y ex') -> origin a stopState start ex x -> origin a stopState start ex' x.
Proof.
  intros Hi [H | (s & tr & H1 & H2 & H3 & H4)]; [left; exact H|].
  right. exists s, tr. split; [apply Hi; exact H1 | auto].
Qed.

Lemma expand_inv start s rest g :
  rule_calls_alone_from a stopState start -> inv_between a stopState start g -> pipeline g = s :: rest ->
  inv_between a stopState start (expand a names stopState labelsOf s rest g) /\
  expanded (expand a names stopState labelsOf s rest g) = expanded g ++ [s] /\
  List.length (links (expand a names stopState labelsOf s rest g)) =
  List.length (links g) + link_count a stopState s.
Proof.
  intros W (Sg & Nd & K & B & R) Hp. unfold expand.
  match goal with |- context [ensureATNNode a names s s ?G] =>
    destruct (ensureATNNode a names s s G) as [si g1] eqn:E1;
    pose proof (ensure_spec G s s) as S1; rewrite E1 in S1 end.
  cbv zeta in S1. simpl in S1. destruct S1 as (P1 & Se1 & L1 & X1 & I1 & H1 & C1).
  assert (Hss : In s (seenStates g)) by (rewrite Sg, Hp; apply in_or_app; right; left; reflexivity).
  assert (Hrs : reachable a stopState start s) by exact (proj1 (R s Hss)).
  assert (Inv1 : inv_within a stopState start s g1).
  { split; [rewrite Se1, X1, P1, Sg, Hp, <- app_assoc; reflexivity|].
    split; [rewrite Se1; exact Nd|].
    split.
    { rewrite Se1. intros x Hx. destruct K as [[He Hp'] | K].
      - rewrite Sg, He, Hp' in Hx. rewrite Hp' in Hp. injection Hp as <- _.
        destruct Hx as [<- | []]. exact H1.
      - apply I1, K, Hx. }
    split; [rewrite X1; apply in_or_app; right; left; reflexivity|].
    split.
    { rewrite X1, P1, length_app. simpl List.length.
      rewrite Hp in B. simpl filter in B.
      pose proof (filter_paid_mono _ _ rest I1) as FM.
      destruct C1 as [[Hh Hn] | (Hh & Hl & Hc & Hm)].
      - rewrite Hn. pose proof (slack_mono _ _ s I1) as SM.
        destruct (paid a (stateToIndex g) s); simpl in B; lia.
      - assert (paid a (stateToIndex g) s = false) by (unfold paid; rewrite Hh; reflexivity).
        assert (paid a (stateToIndex g1) s = true).
        { unfold paid. rewrite H1. simpl.
          destruct (calling a s) eqn:Cs; simpl; [apply Hm; reflexivity | reflexivity]. }
        rewrite H in B. rewrite H0. lia. }
    rewrite Se1, X1. intros x Hx. destruct (R x Hx) as [R1 R2]. split; [exact R1|].
    apply (origin_mono start (expanded g)); [|exact R2].
    intros y Hy. apply in_or_app. left. exact Hy. }
  pose proof (fold_inv start s si (transitions a s) g1 W Hrs (fun tr H => H) Inv1) as Inv2.
  destruct (fold_links s si (transitions a s) g1) as [F1 F2].
  split; [|split].
  - destruct Inv2 as (S2 & N2 & K2 & _ & B2 & R2).
    split; [exact S2|]. split; [exact N2|]. split; [right; exact K2|]. split; [lia | exact R2].
  - rewrite F1, X1. reflexivity.
  - rewrite F2, L1. unfold link_count. reflexivity.
Qed.

Lemma loop_inv start fuel g g' :
  rule_calls_alone_from a stopState start -> inv_between a stopState start g ->
  List.length (links g) = list_sum (List.map (link_count a stopState) (expanded g)) ->
  graph_loop a names stopState labelsOf fuel g = Some g' ->
  inv_between a stopState start g' /\ pipeline g' = [] /\
  List.length (links g') = list_sum (List.map (link_count a stopState) (expanded g')).
Proof.
  intros W. revert g. induction fuel as [|f IH]; intros g Inv HL Hg; [discriminate|].
  simpl in Hg. destruct (pipeline g) as [|s rest] eqn:Hp.
  - injection Hg as <-. auto.
  - destruct (expand_inv start s rest g W Inv Hp) as (Inv' & X' & L').
    apply (IH _ Inv'); [|exact Hg].
    rewrite L', X', map_app, list_sum_app, HL. simpl. lia.
Qed.

Lemma init_inv start : inv_between a stopState start (init_state start).
Proof.
  split; [reflexivity|]. split; [constructor; [intros []|constructor]|].
  split; [left; split; reflexivity|]. split; [simpl; lia|].
  intros x [<- | []]. split; [constructor | left; reflexivity].
Qed.

(** C5: on an ATN where every state the traversal can reach from the start
    state that has a transition to a rule start state has it as its only
    transition (ANTLR puts a rule transition alone on a basic state; states
    outside the rule, such as a lexer's [TokensStartState], are not
    constrained), a finished run of the extraction loop
    from the start state expands every state at most once, and exactly the
    states that entered the seen set ([seenStates = expanded], no
    duplicates); every expanded state is reachable from the start state
    without leaving the stop state, and is the start state or the next
    state of a followed transition of an expanded state that is not the
    stop state; the links are exactly those of the expanded states, none
    for the stop state ([link_count] is 0 there); and the nodes number at
    most the expanded states plus the synthetic rule nodes of type 13. *)
Theorem extraction_expands_states_once start fuel g :
  rule_calls_alone_from a stopState start ->
  graph_loop a names stopState labelsOf fuel (init_state start) = Some g ->
  NoDup (expanded g) /\ seenStates g = expanded g /\
  (forall x, In x (expanded g) -> reachable a stopState start x /\
     (x = start \/ exists s tr, In s (expanded g) /\ is_stop stopState s = false /\
        In tr (transitions a s) /\ next_state a tr = x)) /\
  List.length (links g) = list_sum (List.map (link_count a stopState) (expanded g)) /\
  List.length (nodes g) <= List.length (expanded g) + count_synthetic (nodes g).
Proof.
  intros W Hg.
  destruct (loop_inv start fuel (init_state start) g W (init_inv start) eq_refl Hg)
    as ((Sg & Nd & _ & B & R) & Hp & HL).
  rewrite Hp, app_nil_r in Sg. rewrite Hp in B. simpl in B.
  rewrite Sg in Nd, R. split; [exact Nd|]. split; [exact Sg|]. split; [exact R|].
  split; [exact HL | lia].
Qed.




Lemma has_some m k : has m k = true <-> exists i, index_get m k = Some i.
Proof.
  unfold has. destruct (index_get m k); split; intros H.
  - eexists; reflexivity.
  - reflexivity.
  - discriminate.
  - destruct H; discriminate.
Qed.

Section Distinct.
Variable start : nat.
Hypothesis CI : composite_ids_distinct a stopState start.

Lemma sound_own m ns x i : index_sound a names stopState start m ns -> reachable a stopState start x ->
  index_get m x = Some i -> nth_error ns i = Some (own_node a x x).
Proof.
  intros [M1 _] Hx Hi. destruct (M1 x i Hi) as [[_ H] | (s & Hs & Hc & Hk & _)]; [exact H|].
  exfalso. exact (proj1 CI x s Hx Hs Hc (eq_sym Hk)).
Qed.

Lemma sound_rule m ns s : index_sound a names stopState start m ns -> reachable a stopState start s ->
  calling a s = true -> has m s = true ->
  exists i, index_get m (marker_of a s) = Some i /\
    exists cid, nth_error ns i = Some (rule_node a names cid s).
Proof.
  intros [M1 M2] Hs Hc Hk. pose proof (M2 s Hs Hc Hk) as HM2; apply has_some in HM2 as [i Hi]. exists i. split; [exact Hi|].
  destruct (M1 _ _ Hi) as [[Hr _] | (s' & Hs' & Hc' & Hm & _ & H)].
  - exfalso. exact (proj1 CI _ s Hr Hs Hc eq_refl).
  - destruct (Nat.eq_dec s s') as [<- | Hne]; [exact H|].
    exfalso. exact (proj2 CI s s' Hs Hs' Hc Hc' Hne Hm).
Qed.

Lemma nth_error_prefix (ns ns' : list ATNNode) i n :
  nth_error ns i = Some n -> nth_error (ns ++ ns') i = Some n.
Proof. intros H. rewrite nth_error_app1; [exact H|]. apply nth_error_Some. rewrite H. discriminate. Qed.

(** [ensureATNNode] called for a reachable state, or for the composite id of
    a calling state that is already registered. *)
Lemma ensure_sound g id st :
  index_sound a names stopState start (stateToIndex g) (nodes g) ->
  ((id = st /\ reachable a stopState start st) \/
   (exists s, id = marker_of a s /\ st = target_of a s /\ reachable a stopState start s /\
      calling a s = true /\ has (stateToIndex g) s = true)) ->
  let r := ensureATNNode a names id st g in
  index_sound a names stopState start (stateToIndex (snd r)) (nodes (snd r)) /\
  (forall k i, index_get (stateToIndex g) k = Some i -> index_get (stateToIndex (snd r)) k = Some i) /\
  (exists ns', nodes (snd r) = nodes g ++ ns') /\
  index_get (stateToIndex (snd r)) id = Some (fst r) /\
  pipeline (snd r) = pipeline g /\ seenStates (snd r) = seenStates g /\
  links (snd r) = links g /\ expanded (snd r) = expanded g.
Proof.
  intros Snd C. cbv zeta.
  destruct (index_get (stateToIndex g) id) as [i|] eqn:E.
  - rewrite (ensure_found g id st i E). simpl.
    split; [exact Snd|]. split; [auto|]. split; [exists []; symmetry; apply app_nil_r|]. auto.
  - assert (Hst : id = st /\ reachable a stopState start st).
    { destruct C as [C | (s & Hid & _ & Hs & Hc & Hk)]; [exact C|].
      exfalso. rewrite Hid in E. destruct Snd as [_ M2]. pose proof (M2 s Hs Hc Hk) as HM2; apply has_some in HM2 as [i Hi].
      rewrite E in Hi. discriminate. }
    destruct Hst as [<- Hr].
    rewrite (ensure_new g id id E). simpl.
    set (n := List.length (nodes g)).
    assert (Hfresh : forall k i, index_get (stateToIndex g) k = Some i -> k <> id).
    { intros k i Hk <-. rewrite E in Hk. discriminate. }
    assert (Hmfresh : calling a id = true ->
      forall k i, index_get (stateToIndex g) k = Some i -> k <> marker_of a id).
    { intros Hc k i Hk ->. destruct Snd as [M1 _].
      destruct (M1 _ _ Hk) as [[Hr' _] | (s' & Hs' & Hc' & Hm & Hks & _)].
      - exact (proj1 CI _ id Hr' Hr Hc eq_refl).
      - destruct (Nat.eq_dec id s') as [<- | Hne].
        + unfold has in Hks. rewrite E in Hks. discriminate.
        + exact (proj2 CI id s' Hr Hs' Hc Hc' Hne Hm). }
    assert (Hnm : calling a id = true -> id <> marker_of a id).
    { intros Hc H. exact (proj1 CI id id Hr Hr Hc (eq_sym H)). }
    assert (Stab : forall k i, index_get (stateToIndex g) k = Some i ->
      index_get ((if calling a id then [(marker_of a id, S n)] else []) ++
                 (id, n) :: stateToIndex g) k = Some i).
    { intros k i Hk. destruct (calling a id) eqn:Hc; simpl.
      - rewrite (proj2 (Nat.eqb_neq k _) (Hmfresh eq_refl k i Hk)).
        rewrite (proj2 (Nat.eqb_neq k _) (Hfresh k i Hk)). exact Hk.
      - rewrite (proj2 (Nat.eqb_neq k _) (Hfresh k i Hk)). exact Hk. }
    assert (Hid : index_get ((if calling a id then [(marker_of a id, S n)] else []) ++
                  (id, n) :: stateToIndex g) id = Some n).
    { destruct (calling a id) eqn:Hc; simpl.
      - rewrite (proj2 (Nat.eqb_neq id _) (Hnm eq_refl)), Nat.eqb_refl. reflexivity.
      - rewrite Nat.eqb_refl. reflexivity. }
    assert (Hown : nth_error (nodes g ++ own_node a id id
        :: (if calling a id then [rule_node a names (currentRuleIndex g) id] else [])) n
        = Some (own_node a id id)).
    { rewrite nth_error_app2; [|unfold n; lia]. rewrite Nat.sub_diag. reflexivity. }
    split; [|split; [exact Stab | split; [eexists; reflexivity | split; [exact Hid | auto]]]].
    split.
    + intros k i Hk. destruct (calling a id) eqn:Hc; simpl in Hk;
        try rewrite Hc in Stab; try rewrite Hc in Hid; try rewrite Hc in Hown.
      * destruct (Nat.eqb k (marker_of a id)) eqn:Ek.
        { injection Hk as <-. apply Nat.eqb_eq in Ek. subst k. right. exists id.
          split; [exact Hr|]. split; [exact Hc|]. split; [reflexivity|]. split.
          - apply has_some. exists n. exact Hid.
          - exists (currentRuleIndex g). rewrite nth_error_app2; [|unfold n; lia].
            rewrite Nat.sub_succ_l, Nat.sub_diag by lia. reflexivity. }
        destruct (Nat.eqb k id) eqn:Ek'.
        { injection Hk as <-. apply Nat.eqb_eq in Ek'. subst k. left. split; [exact Hr | exact Hown]. }
        destruct Snd as [M1 _]. destruct (M1 k i Hk) as [[R1 R2] | (s & S1 & S2 & S3 & S4 & cid & S5)].
        { left. split; [exact R1 | apply nth_error_prefix; exact R2]. }
        right. exists s. split; [exact S1|]. split; [exact S2|]. split; [exact S3|]. split.
        { apply has_some in S4 as [j Hj]. apply has_some. exists j. apply Stab. exact Hj. }
        exists cid. apply nth_error_prefix. exact S5.
      * destruct (Nat.eqb k id) eqn:Ek'.
        { injection Hk as <-. apply Nat.eqb_eq in Ek'. subst k. left. split; [exact Hr | exact Hown]. }
        destruct Snd as [M1 _]. destruct (M1 k i Hk) as [[R1 R2] | (s & S1 & S2 & S3 & S4 & cid & S5)].
        { left. split; [exact R1 | apply nth_error_prefix; exact R2]. }
        right. exists s. split; [exact S1|]. split; [exact S2|]. split; [exact S3|]. split.
        { apply has_some in S4 as [j Hj]. apply has_some. exists j. apply Stab. exact Hj. }
        exists cid. apply nth_error_prefix. exact S5.
    + intros s Hs Hc Hk. apply has_some in Hk as [j Hj].
      destruct (Nat.eq_dec s id) as [-> | Hne].
      * rewrite Hc. simpl. unfold has. simpl. rewrite Nat.eqb_refl. reflexivity.
      * assert (Hold : index_get (stateToIndex g) s = Some j).
        { destruct (calling a id) eqn:Cid; simpl in Hj.
          - destruct (Nat.eqb s (marker_of a id)) eqn:E1.
            + apply Nat.eqb_eq in E1. exfalso. exact (proj1 CI s id Hs Hr Cid (eq_sym E1)).
            + rewrite (proj2 (Nat.eqb_neq s id) Hne) in Hj. exact Hj.
          - rewrite (proj2 (Nat.eqb_neq s id) Hne) in Hj. exact Hj. }
        destruct Snd as [_ M2]. assert (Hks : has (stateToIndex g) s = true)
          by (apply has_some; exists j; exact Hold).
        pose proof (M2 s Hs Hc Hks) as HM2; apply has_some in HM2 as [i Hi]. apply has_some. exists i. apply Stab. exact Hi.
Qed.


Lemma grows_refl g : grows g g.
Proof. repeat split; auto. Qed.

Lemma grows_trans g1 g2 g3 : grows g1 g2 -> grows g2 g3 -> grows g1 g3.
Proof.
  intros (A1 & B1 & C1 & D1) (A2 & B2 & C2 & D2).
  repeat split; auto. congruence.
Qed.

Lemma call_linked_grows g g' s tr : grows g g' -> call_linked labelsOf g s tr -> call_linked labelsOf g' s tr.
Proof.
  intros (A & B & C & _) (k & i & j & H1 & H2 & H3 & H4 & H5 & H6).
  exists k, i, j. repeat split; auto.
Qed.

Lemma process_sound s si g tr :
  rule_calls_alone_from a stopState start -> In tr (transitions a s) -> reachable a stopState start s ->
  index_sound a names stopState start (stateToIndex g) (nodes g) ->
  (forall x, In x (pipeline g) -> reachable a stopState start x) ->
  index_get (stateToIndex g) s = Some si ->
  let g' := process_transition a names stopState labelsOf s si g tr in
  index_sound a names stopState start (stateToIndex g') (nodes g') /\
  (forall x, In x (pipeline g') -> reachable a stopState start x) /\
  grows g g' /\
  (is_stop stopState s = false -> is_rule_start a (tr_target tr) = true -> call_linked labelsOf g' s tr).
Proof.
  intros W Htr Hrs Snd Hp Hsi. cbv zeta. unfold process_transition.
  destruct (is_stop stopState s) eqn:Hstop.
  { split; [exact Snd|]. split; [exact Hp|]. split; [apply grows_refl | discriminate]. }
  destruct (is_rule_start a (tr_target tr)) eqn:Hr; cbn beta iota zeta.
  - assert (Hone := W s tr Hrs Htr Hr).
    assert (Hcall : calling a s = true) by (unfold calling; rewrite Hone; exact Hr).
    assert (Hmk : tr_target tr * s = marker_of a s)
      by (unfold marker_of, target_of; rewrite Hone; apply Nat.mul_comm).
    assert (Htg : tr_target tr = target_of a s) by (unfold target_of; rewrite Hone; reflexivity).
    assert (Hnext : next_state a tr = tr_follow tr) by (unfold next_state; rewrite Hr; reflexivity).
    assert (Hrf : reachable a stopState start (tr_follow tr)).
    { rewrite <- Hnext. exact (reach_step a stopState start s tr Hrs Hstop Htr). }
    destruct (ensureATNNode a names (tr_target tr * s) (tr_target tr) g) as [ti g1] eqn:E1.
    assert (C1 : (tr_target tr * s = tr_target tr /\ reachable a stopState start (tr_target tr)) \/
      (exists s0, tr_target tr * s = marker_of a s0 /\ tr_target tr = target_of a s0 /\
        reachable a stopState start s0 /\ calling a s0 = true /\ has (stateToIndex g) s0 = true)).
    { right. exists s. repeat split; auto. apply has_some. exists si. exact Hsi. }
    pose proof (ensure_sound g _ _ Snd C1) as S1. rewrite E1 in S1. cbv zeta in S1. simpl in S1.
    destruct S1 as (Snd1 & St1 & _ & Hti & P1 & Se1 & L1 & X1).
    match goal with |- context [ensureATNNode a names (tr_follow tr) (tr_follow tr) ?G] =>
      destruct (ensureATNNode a names (tr_follow tr) (tr_follow tr) G) as [ri g3] eqn:E2;
      pose proof (ensure_sound G (tr_follow tr) (tr_follow tr)) as S2 end.
    simpl in S2. specialize (S2 Snd1 (or_introl (conj eq_refl Hrf))).
    rewrite E2 in S2. cbv zeta in S2. simpl in S2.
    destruct S2 as (Snd3 & St3 & _ & Hri & P3 & Se3 & L3 & X3).
    assert (Gr : grows g (add_link g3 {| link_source := ti; link_target := ri;
        link_type := TRANSITION_RULE; link_labels := ["ε"%string] |})).
    { split; [|split; [|split]]; simpl.
      - intros k i Hk. apply St3, St1, Hk.
      - intros l Hl. rewrite L3, L1. rewrite !in_app_iff. auto.
      - intros x Hx. rewrite Se3, Se1. exact Hx.
      - rewrite X3, X1. reflexivity. }
    assert (Lk : call_linked labelsOf (add_link g3 {| link_source := ti; link_target := ri;
        link_type := TRANSITION_RULE; link_labels := ["ε"%string] |}) s tr
      \/ ~ In (tr_follow tr) (seenStates g3)).
    { destruct (in_dec Nat.eq_dec (tr_follow tr) (seenStates g3)) as [Hin | Hnin]; [left | right; exact Hnin].
      exists si, ti, ri. simpl. split; [apply St3, St1, Hsi|]. split; [apply St3, Hti|].
      split; [exact Hri|]. split.
      { rewrite L3, !in_app_iff. simpl. auto. }
      split; [rewrite !in_app_iff; simpl; auto | exact Hin]. }
    cbn [seenStates add_link].
    destruct (existsb (Nat.eqb (tr_follow tr)) (seenStates g3)) eqn:Ex.
    + split; [exact Snd3|]. split.
      { simpl. rewrite P3, P1. exact Hp. }
      split; [exact Gr|]. intros _ _. destruct Lk as [Lk | Lk]; [exact Lk|].
      exfalso. apply Lk, existsb_eqb_in, Ex.
    + split; [exact Snd3|]. split.
      { simpl. rewrite P3, P1. intros x Hx. apply in_app_or in Hx as [Hx | [<- | []]]; auto. }
      split.
      { destruct Gr as (G1 & G2 & G3 & G4). split; [|split; [|split]]; simpl in *; auto.
        intros x Hx. apply in_or_app. left. rewrite Se3, Se1. exact Hx. }
      intros _ _. exists si, ti, ri. simpl. split; [apply St3, St1, Hsi|]. split; [apply St3, Hti|].
      split; [exact Hri|]. split.
      { rewrite L3, !in_app_iff. simpl. auto. }
      split; [rewrite !in_app_iff; simpl; auto|].
      rewrite in_app_iff. simpl. auto.
  - assert (Hnext : next_state a tr = tr_target tr) by (unfold next_state; rewrite Hr; reflexivity).
    assert (Hrt : reachable a stopState start (tr_target tr)).
    { rewrite <- Hnext. exact (reach_step a stopState start s tr Hrs Hstop Htr). }
    rewrite Nat.mul_1_r.
    destruct (ensureATNNode a names (tr_target tr) (tr_target tr) g) as [ti g1] eqn:E1.
    pose proof (ensure_sound g (tr_target tr) (tr_target tr) Snd (or_introl (conj eq_refl Hrt))) as S1.
    rewrite E1 in S1. cbv zeta in S1. simpl in S1.
    destruct S1 as (Snd1 & St1 & _ & Hti & P1 & Se1 & L1 & X1).
    cbn [seenStates add_link].
    destruct (existsb (Nat.eqb (tr_target tr)) (seenStates g1)) eqn:Ex.
    + split; [exact Snd1|]. split; [simpl; rewrite P1; exact Hp|]. split; [|discriminate].
      split; [|split; [|split]]; simpl.
      * exact St1.
      * intros l Hl. rewrite L1. apply in_or_app. left. exact Hl.
      * rewrite Se1. auto.
      * exact X1.
    + split; [exact Snd1|]. split.
      { simpl. rewrite P1. intros x Hx. apply in_app_or in Hx as [Hx | [<- | []]]; auto. }
      split; [|discriminate].
      split; [|split; [|split]]; simpl.
      * exact St1.
      * intros l Hl. rewrite L1. apply in_or_app. left. exact Hl.
      * rewrite Se1. intros x Hx. apply in_or_app. left. exact Hx.
      * exact X1.
Qed.

Lemma fold_sound s si l g :
  rule_calls_alone_from a stopState start -> reachable a stopState start s ->
  (forall tr, In tr l -> In tr (transitions a s)) ->
  index_sound a names stopState start (stateToIndex g) (nodes g) ->
  (forall x, In x (pipeline g) -> reachable a stopState start x) ->
  index_get (stateToIndex g) s = Some si ->
  let g' := fold_left (process_transition a names stopState labelsOf s si) l g in
  index_sound a names stopState start (stateToIndex g') (nodes g') /\
  (forall x, In x (pipeline g') -> reachable a stopState start x) /\
  grows g g'.
Proof.
  intros W Hrs. revert g. induction l as [|tr l IH]; intros g Hl Snd Hp Hsi; cbv zeta; simpl.
  - split; [exact Snd|]. split; [exact Hp | apply grows_refl].
  - destruct (process_sound s si g tr W (Hl tr (or_introl eq_refl)) Hrs Snd Hp Hsi)
      as (Snd1 & Hp1 & Gr1 & _).
    destruct (IH (process_transition a names stopState labelsOf s si g tr)) as (Snd2 & Hp2 & Gr2).
    + intros t Ht. apply Hl. right. exact Ht.
    + exact Snd1.
    + exact Hp1.
    + destruct Gr1 as (St & _). apply St, Hsi.
    + split; [exact Snd2|]. split; [exact Hp2|]. exact (grows_trans _ _ _ Gr1 Gr2).
Qed.


Lemma expand_sound s rest g :
  rule_calls_alone_from a stopState start -> inv6 a names stopState labelsOf start g -> pipeline g = s :: rest ->
  inv6 a names stopState labelsOf start (expand a names stopState labelsOf s rest g).
Proof.
  intros W (Snd & Hp & Hx & Lk) Hps. unfold expand.
  assert (Hrs : reachable a stopState start s) by (apply Hp; rewrite Hps; left; reflexivity).
  match goal with |- context [ensureATNNode a names s s ?G] =>
    destruct (ensureATNNode a names s s G) as [si g1] eqn:E1;
    pose proof (ensure_sound G s s) as S1 end.
  simpl in S1. specialize (S1 Snd (or_introl (conj eq_refl Hrs))).
  rewrite E1 in S1. cbv zeta in S1. simpl in S1.
  destruct S1 as (Snd1 & St1 & _ & Hsi & P1 & Se1 & L1 & X1).
  assert (Hp1 : forall x, In x (pipeline g1) -> reachable a stopState start x).
  { rewrite P1. intros x Hx'. apply Hp. rewrite Hps. right. exact Hx'. }
  destruct (fold_sound s si (transitions a s) g1 W Hrs (fun tr H => H) Snd1 Hp1 Hsi)
    as (Snd2 & Hp2 & Gr2). cbv zeta in Snd2, Hp2, Gr2.
  assert (Gr1 : forall s' tr, call_linked labelsOf g s' tr -> call_linked labelsOf g1 s' tr).
  { intros s' tr (k & i & j & H1 & H2 & H3 & H4 & H5 & H6).
    exists k, i, j. rewrite L1, Se1. repeat split; auto. }
  split; [exact Snd2|]. split; [exact Hp2|].
  destruct Gr2 as (G1 & G2 & G3 & G4). rewrite G4, X1.
  split.
  { intros x Hx'. apply in_app_or in Hx' as [Hx' | [<- | []]]; [apply Hx, Hx' | exact Hrs]. }
  intros s' tr Hin Hstop Htr Hr. apply in_app_or in Hin as [Hin | [<- | []]].
  - apply (call_linked_grows g1); [split; [exact G1 | split; [exact G2 | split; [exact G3 | exact G4]]]|].
    apply Gr1, Lk; assumption.
  - assert (Hone := W s tr Hrs Htr Hr).
    rewrite Hone. simpl.
    destruct (process_sound s si g1 tr W Htr Hrs Snd1 Hp1 Hsi) as (_ & _ & _ & Lk').
    exact (Lk' Hstop Hr).
Qed.

Lemma loop_sound fuel g g' :
  rule_calls_alone_from a stopState start -> inv6 a names stopState labelsOf start g ->
  graph_loop a names stopState labelsOf fuel g = Some g' -> inv6 a names stopState labelsOf start g'.
Proof.
  intros W. revert g. induction fuel as [|f IH]; intros g Inv Hg; [discriminate|].
  simpl in Hg. destruct (pipeline g) as [|s rest] eqn:Hp.
  - injection Hg as <-. exact Inv.
  - exact (IH _ (expand_sound s rest g W Inv Hp) Hg).
Qed.

Lemma init_sound : inv6 a names stopState labelsOf start (init_state start).
Proof.
  split; [split|].
  - intros k i H. discriminate.
  - intros s _ _ H. discriminate.
  - split; [intros x [<- | []]; constructor|]. split; [intros x []|]. intros s tr [].
Qed.

(** When every reachable state with a transition to a rule start state has
    it as its only transition (as for C5, states outside the rule are not
    constrained) and the composite ids of the reachable calling states
    differ from every reachable state number and from each other, every
    rule transition
    of an expanded state [s] other than the stop state has: the node of [s];
    under the composite id [s * target] a rule node of type 13 named after
    the target's rule; a link from the node of [s] to it; an epsilon back
    link of type [RULE] from it to the node of the follow state; and the
    follow state in the seen set. *)
Theorem rule_calls_linked_without_collisions fuel g :
  rule_calls_alone_from a stopState start ->
  graph_loop a names stopState labelsOf fuel (init_state start) = Some g ->
  forall s tr, In s (expanded g) -> is_stop stopState s = false -> In tr (transitions a s) ->
    is_rule_start a (tr_target tr) = true ->
    exists k i j cid,
      index_get (stateToIndex g) s = Some k /\
      nth_error (nodes g) k = Some (own_node a s s) /\
      index_get (stateToIndex g) (s * tr_target tr) = Some i /\
      nth_error (nodes g) i =
        Some {| node_id := cid; node_name := RuleName (nth_error names (stateRule a (tr_target tr)));
                node_type := 13 |} /\
      index_get (stateToIndex g) (tr_follow tr) = Some j /\
      nth_error (nodes g) j = Some (own_node a (tr_follow tr) (tr_follow tr)) /\
      In {| link_source := k; link_target := i; link_type := tr_type tr;
            link_labels := labelsOf tr |} (links g) /\
      In {| link_source := i; link_target := j; link_type := TRANSITION_RULE;
            link_labels := ["ε"%string] |} (links g) /\
      In (tr_follow tr) (seenStates g).
Proof.
  intros W Hg s tr Hin Hstop Htr Hr.
  destruct (loop_sound fuel _ g W init_sound Hg) as (Snd & _ & Hx & Lk).
  destruct (Lk s tr Hin Hstop Htr Hr) as (k & i & j & H1 & H2 & H3 & H4 & H5 & H6).
  assert (Hrs := Hx s Hin).
  assert (Hone := W s tr Hrs Htr Hr).
  assert (Hcall : calling a s = true) by (unfold calling; rewrite Hone; exact Hr).
  assert (Hmk : tr_target tr * s = marker_of a s)
    by (unfold marker_of, target_of; rewrite Hone; apply Nat.mul_comm).
  assert (Htg : target_of a s = tr_target tr) by (unfold target_of; rewrite Hone; reflexivity).
  assert (Hnext : next_state a tr = tr_follow tr) by (unfold next_state; rewrite Hr; reflexivity).
  assert (Hrf : reachable a stopState start (tr_follow tr)).
  { rewrite <- Hnext. exact (reach_step a stopState start s tr Hrs Hstop Htr). }
  destruct (sound_rule _ _ s Snd Hrs Hcall) as (i' & Hi' & cid & Hn).
  { apply has_some. exists k. exact H1. }
  rewrite <- Hmk, H2 in Hi'. injection Hi' as <-.
  exists k, i, j, cid.
  split; [exact H1|]. split; [exact (sound_own _ _ s k Snd Hrs H1)|].
  split; [rewrite Nat.mul_comm; exact H2|].
  split; [rewrite Hn; unfold rule_node; rewrite Htg; reflexivity|].
  split; [exact H3|]. split; [exact (sound_own _ _ _ j Snd Hrf H3)|].
  auto.
Qed.

End Distinct.

End Extraction.

Lemma collide_atn_rule_calls_alone : rule_calls_alone collide_atn.
Proof.
  intros s tr H _.
  destruct s as [|[|[|[|[|[|[|[|[|[|[|[|[|s]]]]]]]]]]]]]; simpl in H;
    try contradiction; destruct H as [<- | []]; reflexivity.
Qed.

Lemma tokens_atn_reachable x :
  reachable tokens_atn (Some 6) 4 x -> In x [4; 5; 11; 6].
Proof.
  intros H. induction H as [|s tr Hs IH Hstop Htr].
  - left. reflexivity.
  - destruct IH as [<- | [<- | [<- | [<- | []]]]]; simpl in Htr;
      try (destruct Htr as [<- | []]; vm_compute; tauto).
    vm_compute in Hstop. discriminate.
Qed.

(** The [TokensStartState] breaks [rule_calls_alone], but it is not
    reachable from the start state of rule [c]. *)
Lemma tokens_atn_not_calls_alone : ~ rule_calls_alone tokens_atn.
Proof.
  intros W. specialize (W 13 (eps 2) (or_introl eq_refl) eq_refl).
  simpl in W. discriminate.
Qed.

Lemma tokens_atn_calls_alone_from : rule_calls_alone_from tokens_atn (Some 6) 4.
Proof.
  intros s tr Hs Htr _. apply tokens_atn_reachable in Hs.
  destruct Hs as [<- | [<- | [<- | [<- | []]]]]; simpl in Htr;
    destruct Htr as [<- | []]; reflexivity.
Qed.

Lemma tokens_atn_ids_distinct : composite_ids_distinct tokens_atn (Some 6) 4.
Proof.
  split.
  - intros x s Hx Hs Hc. apply tokens_atn_reachable in Hx, Hs.
    destruct Hs as [<- | [<- | [<- | [<- | []]]]]; vm_compute in Hc; try discriminate.
    destruct Hx as [<- | [<- | [<- | [<- | []]]]]; vm_compute; discriminate.
  - intros s1 s2 H1 H2 C1 C2 Hne. apply tokens_atn_reachable in H1, H2.
    destruct H1 as [<- | [<- | [<- | [<- | []]]]]; vm_compute in C1; try discriminate.
    destruct H2 as [<- | [<- | [<- | [<- | []]]]]; vm_compute in C2; try discriminate.
    contradiction.
Qed.

(** Witness of [extraction_expands_states_once] on [tokens_atn]. *)
Lemma extraction_expands_states_once_witness :
  ~ rule_calls_alone tokens_atn /\ rule_calls_alone_from tokens_atn (Some 6) 4 /\
  exists g, graph_loop tokens_atn ex_names (Some 6) (fun _ => []) 10 (init_state 4) = Some g /\
    NoDup (expanded g) /\ List.length (nodes g) <= List.length (expanded g) + count_synthetic (nodes g).
Proof.
  split; [exact tokens_atn_not_calls_alone|]. split; [exact tokens_atn_calls_alone_from|].
  pose (g := match graph_loop tokens_atn ex_names (Some 6) (fun _ => []) 10 (init_state 4) with
             | Some g => g | None => init_state 4 end).
  assert (E : graph_loop tokens_atn ex_names (Some 6) (fun _ => []) 10 (init_state 4) = Some g)
    by (vm_compute; reflexivity).
  exists g. split; [exact E|].
  destruct (extraction_expands_states_once tokens_atn ex_names (Some 6) (fun _ => []) 4 10 g tokens_atn_calls_alone_from E)
    as (H1 & _ & _ & _ & H5).
  split; assumption.
Defined.

(** Witness of [rule_calls_linked_without_collisions] on [tokens_atn]. *)
Lemma rule_calls_linked_without_collisions_witness :
  ~ rule_calls_alone tokens_atn /\ rule_calls_alone_from tokens_atn (Some 6) 4 /\ composite_ids_distinct tokens_atn (Some 6) 4 /\
  exists g, graph_loop tokens_atn ex_names (Some 6) (fun _ => []) 10 (init_state 4) = Some g /\
    exists k i j cid,
      index_get (stateToIndex g) 5 = Some k /\
      index_get (stateToIndex g) (5 * 2) = Some i /\
      nth_error (nodes g) i =
        Some {| node_id := cid; node_name := RuleName (Some "b"%string); node_type := 13 |} /\
      index_get (stateToIndex g) 11 = Some j /\
      In {| link_source := i; link_target := j; link_type := TRANSITION_RULE;
            link_labels := ["ε"%string] |} (links g).
Proof.
  split; [exact tokens_atn_not_calls_alone|]. split; [exact tokens_atn_calls_alone_from|]. split; [exact tokens_atn_ids_distinct|].
  pose (g := match graph_loop tokens_atn ex_names (Some 6) (fun _ => []) 10 (init_state 4) with
             | Some g => g | None => init_state 4 end).
  assert (E : graph_loop tokens_atn ex_names (Some 6) (fun _ => []) 10 (init_state 4) = Some g)
    by (vm_compute; reflexivity).
  exists g. split; [exact E|].
  destruct (rule_calls_linked_without_collisions tokens_atn ex_names (Some 6) (fun _ => []) 4 tokens_atn_ids_distinct 10 g
              tokens_atn_calls_alone_from E 5 (call_b 11))
    as (k & i & j & cid & H1 & _ & H3 & H4 & H5 & _ & _ & H8 & _);
    [vm_compute; tauto | reflexivity | left; reflexivity | reflexivity |].
  exists k, i, j, cid. repeat split; assumption.
Defined.

End ATNGraphFacts.

Module ATNGraphCounterexamples.
Import ATNGraph ATNGraphFacts.

(** C6 fails when a composite id is a state number: in [collide_atn] the
    call from state 5 registers its rule node under 5 * 2 = 10, the number
    of its follow state 10. State 10 then takes that rule node as its own
    and gets no rule node for its own call of [b]: under its composite id
    10 * 2 = 20 sits a node of the start state's type 2 named "20", and the
    graph holds a single rule node for the two calls. *)
Lemma second_call_collides_with_state_id :
  rule_calls_alone collide_atn /\
  exists g, graph_loop collide_atn ex_names (Some 6) (fun _ => []) 20 (init_state 4) = Some g /\
    In 10 (expanded g) /\ is_stop (Some 6) 10 = false /\
    transitions collide_atn 10 = [call_b 11] /\ is_rule_start collide_atn 2 = true /\
    index_get (stateToIndex g) (10 * 2) = Some 3 /\
    nth_error (nodes g) 3 = Some {| node_id := 20%Z; node_name := IdText 20; node_type := 2 |} /\
    count_synthetic (nodes g) = 1.
Proof.
  split; [exact collide_atn_rule_calls_alone|].
  pose (g := match graph_loop collide_atn ex_names (Some 6) (fun _ => []) 20 (init_state 4) with
             | Some g => g | None => init_state 4 end).
  exists g. vm_compute. repeat split; auto 10.
Qed.

End ATNGraphCounterexamples.

Module StringFacts.
Local Open Scope string_scope.

Lemma string_app_assoc (s t u : string) : (s ++ t) ++ u = s ++ (t ++ u).
Proof. induction s as [|c s IH]; simpl; [reflexivity | now rewrite IH]. Qed.

Lemma string_app_nil_r (s : string) : s ++ "" = s.
Proof. induction s as [|c s IH]; simpl; [reflexivity | now rewrite IH]. Qed.

Lemma string_length_app (s t : string) :
  String.length (s ++ t) = (String.length s + String.length t)%nat.
Proof. induction s as [|c s IH]; simpl; [reflexivity | now rewrite IH]. Qed.

End StringFacts.

Module MeshRemoveFacts.
Import Mesh MeshRemove.

Lemma contains_In (l : list nat) (x : nat) : contains l x = true <-> In x l.
Proof.
  unfold contains. rewrite existsb_exists. split.
  - intros (y & Hy & E). apply Nat.eqb_eq in E. subst. exact Hy.
  - intros H. exists x. split; [exact H | apply Nat.eqb_refl].
Qed.

Lemma add_walk_first (fuel : nat) (r : nat -> list nat) (self context : nat) :
  add_walk fuel r self [context] = Some false -> ~ In self (r context).
Proof.
  destruct fuel as [|f]; simpl; [discriminate|].
  destruct (contains (r context) self) eqn:E; [discriminate|].
  intros _ Hin. apply contains_In in Hin. congruence.
Qed.

Lemma splice_first_notin (l : list nat) (x : nat) : ~ In x l -> splice_first l x = l.
Proof.
  induction l as [|y l IH]; simpl; intros H; [reflexivity|].
  destruct (Nat.eqb_spec y x); [exfalso; auto|]. f_equal. auto.
Qed.

Lemma splice_first_In (l : list nat) (x z : nat) :
  NoDup l -> In z (splice_first l x) <-> In z l /\ z <> x.
Proof.
  induction l as [|y l IH]; simpl; intros Hnd; [tauto|].
  inversion Hnd as [|? ? Hy Hl]; subst.
  destruct (Nat.eqb_spec y x) as [-> | Hne].
  - split.
    + intros H. split; [auto | intros ->; contradiction].
    + intros [[-> | H] Hne]; [contradiction | exact H].
  - simpl. rewrite IH by exact Hl. split.
    + intros [<- | [H1 H2]]; auto.
    + intros [[<- | H1] H2]; auto.
Qed.

Lemma splice_first_NoDup (l : list nat) (x : nat) : NoDup l -> NoDup (splice_first l x).
Proof.
  induction l as [|y l IH]; simpl; intros Hnd; [constructor|].
  inversion Hnd as [|? ? Hy Hl]; subst.
  destruct (Nat.eqb y x); [exact Hl|].
  constructor; [|auto]. rewrite splice_first_In by exact Hl. tauto.
Qed.

Lemma set_delete_In (l : list nat) (x z : nat) : In z (set_delete l x) <-> In z l /\ z <> x.
Proof.
  unfold set_delete. rewrite filter_In. rewrite negb_true_iff, Nat.eqb_neq. tauto.
Qed.

Lemma set_delete_notin (l : list nat) (x : nat) : ~ In x l -> set_delete l x = l.
Proof.
  induction l as [|y l IH]; simpl; intros H; [reflexivity|].
  destruct (Nat.eqb_spec y x); [exfalso; auto|]. simpl. f_equal. auto.
Qed.

Lemma set_add_notin (l : list nat) (x : nat) : ~ In x l -> set_add l x = l ++ [x].
Proof.
  unfold set_add. intros H. destruct (contains l x) eqn:E; [|reflexivity].
  apply contains_In in E. contradiction.
Qed.

Lemma set_add_In (l : list nat) (x z : nat) : In z (set_add l x) <-> In z l \/ z = x.
Proof.
  unfold set_add. destruct (contains l x) eqn:E.
  - apply contains_In in E. split; [auto|]. intros [H | ->]; auto.
  - rewrite in_app_iff. simpl. split.
    + intros [H | [H | []]]; auto.
    + intros [H | H]; auto.
Qed.

Lemma set_add_NoDup (l : list nat) (x : nat) : NoDup l -> NoDup (set_add l x).
Proof.
  unfold set_add. intros H. destruct (contains l x) eqn:E; [exact H|].
  apply NoDup_app; auto using NoDup_cons, NoDup_nil.
  - intros y Hy [<- | []]. apply contains_In in Hy. congruence.
Qed.

Lemma upd_eq (f : nat -> list nat) (c : nat) (l : list nat) : upd f c l c = l.
Proof. unfold upd. now rewrite Nat.eqb_refl. Qed.

Lemma upd_neq (f : nat -> list nat) (c x : nat) (l : list nat) : x <> c -> upd f c l x = f x.
Proof. unfold upd. intros H. apply Nat.eqb_neq in H. now rewrite H. Qed.

Lemma remove_unlinked (m : mesh) (self context : nat) :
  mirrored m -> ~ In self (refs m context) -> same_mesh (removeDependency m self context) m.
Proof.
  intros [Hm _] Hn c. unfold removeDependency; cbn [refs deps]. split.
  - destruct (Nat.eqb_spec c context) as [-> | Hne].
    + rewrite upd_eq. now apply splice_first_notin.
    + now rewrite upd_neq.
  - destruct (Nat.eqb_spec c self) as [-> | Hne].
    + rewrite upd_eq. apply set_delete_notin. rewrite <- Hm. exact Hn.
    + now rewrite upd_neq.
Qed.

Lemma splice_first_snoc (l : list nat) (x : nat) : ~ In x l -> splice_first (l ++ [x]) x = l.
Proof.
  induction l as [|y l IH]; simpl; intros H; [now rewrite Nat.eqb_refl|].
  destruct (Nat.eqb_spec y x); [exfalso; auto|]. f_equal. auto.
Qed.

Lemma set_delete_snoc (l : list nat) (x : nat) : ~ In x l -> set_delete (l ++ [x]) x = l.
Proof.
  intros H. unfold set_delete. rewrite filter_app. simpl. rewrite Nat.eqb_refl. simpl.
  rewrite app_nil_r. exact (set_delete_notin l x H).
Qed.

Lemma remove_appended (m : mesh) (self context : nat) :
  mirrored m -> ~ In self (refs m context) ->
  same_mesh (removeDependency
               {| refs := upd (refs m) context (refs m context ++ [self]);
                  deps := upd (deps m) self (set_add (deps m self) context) |}
               self context) m.
Proof.
  intros [Hm _] Hn. assert (Hd : ~ In context (deps m self)) by (rewrite <- Hm; exact Hn).
  intros c. unfold removeDependency; cbn [refs deps]. rewrite !upd_eq. split.
  - destruct (Nat.eqb_spec c context) as [-> | Hne].
    + rewrite upd_eq. now apply splice_first_snoc.
    + rewrite !upd_neq by exact Hne. reflexivity.
  - destruct (Nat.eqb_spec c self) as [-> | Hne].
    + rewrite upd_eq, set_add_notin by exact Hd. now apply set_delete_snoc.
    + rewrite !upd_neq by exact Hne. reflexivity.
Qed.

(** Extra: [addAsReferenceTo] keeps the reference lists and the
    dependency sets mirrored: [self] is appended to [context]'s
    [references] exactly when [context]'s table becomes a dependency of
    [self]'s, and never a second time. *)
Theorem addAsReferenceTo_mirrored (fuel : nat) (m m' : mesh) (self context : nat) :
  mirrored m -> addAsReferenceTo fuel m self context = Some m' -> mirrored m'.
Proof.
  intros Hm. unfold addAsReferenceTo.
  destruct (add_walk fuel (refs m) self [context]) as [[|]|] eqn:W; intros E;
    injection E as <- || discriminate; [exact Hm|].
  pose proof (add_walk_first _ _ _ _ W) as Hn.
  destruct Hm as (Hm & Hr & Hd).
  assert (Hcd : ~ In context (deps m self)) by (rewrite <- Hm; exact Hn).
  split; [|split]; cbn [refs deps].
  - intros x y.
    destruct (Nat.eqb_spec y context) as [-> | Hy]; destruct (Nat.eqb_spec x self) as [-> | Hx].
    + rewrite !upd_eq, in_app_iff, set_add_In. simpl. tauto.
    + rewrite upd_eq, upd_neq by exact Hx. rewrite in_app_iff, <- Hm. simpl.
      split; [intros [H | [H | []]]; [exact H | congruence] | auto].
    + rewrite upd_neq by exact Hy. rewrite upd_eq, set_add_In, Hm. tauto.
    + rewrite !upd_neq by assumption. apply Hm.
  - intros y. destruct (Nat.eqb_spec y context) as [-> | Hy].
    + rewrite upd_eq. apply NoDup_app; auto using NoDup_cons, NoDup_nil.
      intros z Hz [<- | []]. contradiction.
    + rewrite upd_neq by exact Hy. apply Hr.
  - intros x. destruct (Nat.eqb_spec x self) as [-> | Hx].
    + rewrite upd_eq. apply set_add_NoDup, Hd.
    + rewrite upd_neq by exact Hx. apply Hd.
Qed.

Lemma addAsReferenceTo_mirrored_witness :
  exists m', addAsReferenceTo 3 empty_mesh 1 2 = Some m' /\ mirrored m'.
Proof.
  eexists. split; [reflexivity|].
  apply (addAsReferenceTo_mirrored 3 empty_mesh _ 1 2).
  - split; [|split]; simpl; [tauto | constructor | constructor].
  - reflexivity.
Defined.

(** Extra: [removeDependency] keeps the reference lists and the
    dependency sets mirrored: it drops [self] from [context]'s
    [references] and [context]'s table from [self]'s dependencies. *)
Theorem removeDependency_mirrored (m : mesh) (self context : nat) :
  mirrored m -> mirrored (removeDependency m self context).
Proof.
  intros (Hm & Hr & Hd). unfold removeDependency.
  split; [|split]; cbn [refs deps].
  - intros x y.
    destruct (Nat.eqb_spec y context) as [-> | Hy]; destruct (Nat.eqb_spec x self) as [-> | Hx].
    + rewrite !upd_eq, splice_first_In, set_delete_In by apply Hr. tauto.
    + rewrite upd_eq, upd_neq by exact Hx. rewrite splice_first_In by apply Hr.
      rewrite Hm. tauto.
    + rewrite upd_neq by exact Hy. rewrite upd_eq, set_delete_In, Hm. tauto.
    + rewrite !upd_neq by assumption. apply Hm.
  - intros y. destruct (Nat.eqb_spec y context) as [-> | Hy].
    + rewrite upd_eq. apply splice_first_NoDup, Hr.
    + rewrite upd_neq by exact Hy. apply Hr.
  - intros x. destruct (Nat.eqb_spec x self) as [-> | Hx].
    + rewrite upd_eq. apply NoDup_filter, Hd.
    + rewrite upd_neq by exact Hx. apply Hd.
Qed.

Lemma removeDependency_mirrored_witness :
  mirrored empty_mesh /\ mirrored (removeDependency empty_mesh 1 2).
Proof.
  assert (H : mirrored empty_mesh) by (split; [|split]; simpl; [tauto | constructor | constructor]).
  split; [exact H | exact (removeDependency_mirrored empty_mesh 1 2 H)].
Defined.

(** Extra: [removeDependency] undoes [addAsReferenceTo] on a mirrored
    mesh: removing after adding gives the same lists as removing alone,
    and when [self] was not already in [context]'s [references] the mesh
    is back to what it was before the add. *)
Theorem remove_after_addAsReferenceTo (fuel : nat) (m m' : mesh) (self context : nat) :
  mirrored m -> addAsReferenceTo fuel m self context = Some m' ->
  same_mesh (removeDependency m' self context) (removeDependency m self context) /\
  (~ In self (refs m context) -> same_mesh (removeDependency m' self context) m).
Proof.
  intros Hm. unfold addAsReferenceTo.
  destruct (add_walk fuel (refs m) self [context]) as [[|]|] eqn:W; intros E;
    injection E as <- || discriminate.
  - split; [intros c; auto|]. intros Hn. now apply remove_unlinked.
  - pose proof (add_walk_first _ _ _ _ W) as Hn.
    pose proof (remove_appended m self context Hm Hn) as H1.
    pose proof (remove_unlinked m self context Hm Hn) as H2.
    split; [|intros _; exact H1].
    intros c. destruct (H1 c) as [E1 E2]. destruct (H2 c) as [E3 E4].
    split; congruence.
Qed.

Lemma remove_after_addAsReferenceTo_witness :
  exists m', addAsReferenceTo 3 empty_mesh 1 2 = Some m' /\
             same_mesh (removeDependency m' 1 2) empty_mesh.
Proof.
  eexists. split; [reflexivity|].
  apply (remove_after_addAsReferenceTo 3 empty_mesh _ 1 2).
  - split; [|split]; simpl; [tauto | constructor | constructor].
  - reflexivity.
  - simpl. tauto.
Defined.

End MeshRemoveFacts.

Module IntervalFacts.
Import Intervals StringFacts.
Local Open Scope string_scope.
Local Open Scope Z_scope.

Lemma to_hex_aux_app (f : nat) : forall n acc1 acc2,
  to_hex_aux f n (acc1 ++ acc2) = to_hex_aux f n acc1 ++ acc2.
Proof.
  induction f as [|f IH]; intros n acc1 acc2; [reflexivity|].
  simpl. destruct (n <? 16); [reflexivity|].
  exact (IH (n / 16) (String (hex_digit (n mod 16)) acc1) acc2).
Qed.

Lemma toUpperCase_app (s t : string) :
  toUpperCase (s ++ t) = toUpperCase s ++ toUpperCase t.
Proof. induction s as [|c s IH]; simpl; [reflexivity | now rewrite IH]. Qed.

Lemma hex_val_digit (d : Z) : 0 <= d < 16 -> hex_val (upper_ascii (hex_digit d)) = Some d.
Proof.
  intros Hd.
  assert (d = 0 \/ d = 1 \/ d = 2 \/ d = 3 \/ d = 4 \/ d = 5 \/ d = 6 \/ d = 7 \/
          d = 8 \/ d = 9 \/ d = 10 \/ d = 11 \/ d = 12 \/ d = 13 \/ d = 14 \/ d = 15)
    as E by lia.
  repeat destruct E as [-> | E]; subst; vm_compute; reflexivity.
Qed.

Lemma read_hex_digits (f : nat) : forall n v r,
  0 <= n < 2 ^ Z.of_nat f ->
  read_hex (toUpperCase (to_hex_aux f n "") ++ r) v
  = read_hex r (v * 16 ^ Z.of_nat (String.length (to_hex_aux f n "")) + n).
Proof.
  induction f as [|f IH]; intros n v r Hn.
  - simpl in Hn. assert (n = 0) by lia. subst. simpl. f_equal; lia.
  - simpl to_hex_aux. destruct (Z.ltb_spec n 16) as [Hlt | Hge].
    + rewrite Z.mod_small by lia.
      cbn [toUpperCase String.append read_hex String.length].
      rewrite hex_val_digit by lia. f_equal; lia.
    + change (String (hex_digit (n mod 16)) "") with ("" ++ String (hex_digit (n mod 16)) "").
      rewrite to_hex_aux_app, toUpperCase_app, string_app_assoc.
      assert (Hq : 0 <= n / 16 < 2 ^ Z.of_nat f).
      { split; [apply Z.div_pos; lia|].
        apply Z.div_lt_upper_bound; [lia|].
        rewrite Nat2Z.inj_succ, Z.pow_succ_r in Hn by lia.
        assert (0 < 2 ^ Z.of_nat f) by (apply Z.pow_pos_nonneg; lia).
        lia. }
      rewrite (IH (n / 16) v _ Hq). simpl.
      rewrite hex_val_digit by (apply Z.mod_pos_bound; lia).
      f_equal. rewrite string_length_app. simpl String.length.
      rewrite Nat.add_1_r, Nat2Z.inj_succ, Z.pow_succ_r by lia.
      pose proof (Z.div_mod n 16). lia.
Qed.

Lemma to_hex_aux_head (f : nat) : forall n acc,
  exists d t, 0 <= d < 16 /\ to_hex_aux (S f) n acc = String (hex_digit d) t.
Proof.
  induction f as [|f IH]; intros n acc; simpl.
  - destruct (n <? 16); exists (n mod 16); eexists;
      (split; [apply Z.mod_pos_bound; lia | reflexivity]).
  - destruct (n <? 16).
    + exists (n mod 16); eexists; split; [apply Z.mod_pos_bound; lia | reflexivity].
    + apply IH.
Qed.

Lemma toString16_bound (n : Z) :
  0 <= n -> 0 <= n < 2 ^ Z.of_nat (S (Z.to_nat (Z.log2 n))).
Proof.
  intros Hn. split; [exact Hn|].
  rewrite Nat2Z.inj_succ, Z2Nat.id by apply Z.log2_nonneg.
  destruct (Z.eq_dec n 0) as [-> | Hnz]; [reflexivity|].
  apply Z.log2_spec; lia.
Qed.

Lemma read_hex_stop (r : string) (v : Z) :
  match r with String ch _ => hex_val ch = None | EmptyString => True end ->
  read_hex r v = (v, r).
Proof. destruct r as [|ch t]; simpl; [reflexivity|]. intros ->; reflexivity. Qed.

Lemma read_rep_characterRepresentation (c : Z) (r : string) :
  match r with String ch _ => hex_val ch = None | EmptyString => True end ->
  read_rep (characterRepresentation c ++ r) = Some (Z.max c (-1), r).
Proof.
  intros Hr. unfold characterRepresentation.
  destruct (Z.ltb_spec c 0) as [Hneg | Hpos].
  - simpl. f_equal. f_equal. lia.
  - destruct (((0x21 <=? c) && (c <=? 0x7F)) || ((0xA1 <=? c) && (c <=? 0xFF))) eqn:Hq.
    + assert (Hc : c <= 255).
      { apply orb_true_iff in Hq.
        destruct Hq as [Hq | Hq]; apply andb_true_iff in Hq; destruct Hq as [_ Hq];
          apply Z.leb_le in Hq; lia. }
      unfold fromCharCode. simpl.
      rewrite nat_ascii_embedding by lia.
      rewrite Z2Nat.id by lia. f_equal. f_equal. lia.
    + unfold toString16.
      destruct (to_hex_aux_head (Z.to_nat (Z.log2 c)) c "") as (d & t & Hd & Ht).
      pose proof (read_hex_digits _ c 0 r (toString16_bound c Hpos)) as Hread.
      rewrite Ht in Hread |- *. cbn [toUpperCase String.append] in Hread |- *.
      cbn [read_hex] in Hread. rewrite hex_val_digit in Hread by exact Hd.
      unfold read_rep. cbn [String.append]. cbv [Ascii.eqb Bool.eqb andb].
      rewrite hex_val_digit by exact Hd.
      replace (0 * 16 + d) with d in Hread by lia.
      rewrite Hread, read_hex_stop by exact Hr.
      f_equal. f_equal. rewrite Z.mul_0_l, Z.add_0_l. lia.
Qed.


(** Extra: [intervalSetToStrings] loses nothing about the bounds: every
    entry reads back as the interval's bounds, EOF (any negative bound) as
    [-1]; one entry per interval, in order. *)
Theorem intervalSetToStrings_read_back (intervals : list Interval) :
  map read_entry (intervalSetToStrings intervals)
  = map (fun iv => Some (Z.max (a iv) (-1), Z.max (b iv) (-1))) intervals.
Proof.
  induction intervals as [|iv ivs IH]; [reflexivity|].
  cbn [map intervalSetToStrings]. fold (intervalSetToStrings ivs). rewrite IH.
  f_equal. unfold read_entry.
  destruct (negb (a iv =? b iv)) eqn:Hab.
  - rewrite (read_rep_characterRepresentation (a iv) (" - " ++ characterRepresentation (b iv)))
      by reflexivity.
    cbn [String.append].
    rewrite <- (string_app_nil_r (characterRepresentation (b iv))).
    rewrite read_rep_characterRepresentation by exact I. reflexivity.
  - apply negb_false_iff, Z.eqb_eq in Hab.
    rewrite <- (string_app_nil_r (characterRepresentation (a iv))).
    rewrite read_rep_characterRepresentation by exact I. rewrite Hab. reflexivity.
Qed.

(** Extra: [characterRepresentation] is injective on code points and EOF
    ([-1]): two different such values never print the same. *)
Theorem characterRepresentation_injective (c d : Z) :
  -1 <= c -> -1 <= d -> characterRepresentation c = characterRepresentation d -> c = d.
Proof.
  intros Hc Hd E.
  pose proof (read_rep_characterRepresentation c "" I) as Rc.
  pose proof (read_rep_characterRepresentation d "" I) as Rd.
  rewrite E, Rd in Rc. injection Rc. lia.
Qed.

Lemma characterRepresentation_injective_witness :
  -1 <= 0x41 /\ characterRepresentation 0x41 = "'A'" /\ 0x41 = 0x41.
Proof.
  split; [lia|]. split; [vm_compute; reflexivity|].
  apply (characterRepresentation_injective 0x41 0x41); [lia | lia | reflexivity].
Defined.

End IntervalFacts.

Module ParseTreeFacts.
Import ParseTree StringFacts.
Local Open Scope string_scope.
Local Open Scope Z_scope.

Lemma PTree_nested_ind (P : PTree -> Prop)
  (HT : forall t, P (TerminalNode t))
  (HR : forall i s e ch, Forall P ch -> P (RuleContext i s e ch)) :
  forall t, P t.
Proof.
  fix F 1. intros [t | i s e ch].
  - apply HT.
  - apply HR. induction ch as [|c ch IH]; constructor; [apply F | exact IH].
Qed.

Lemma first_result_spec {A : Type} (f : PTree -> option A) (l : list PTree) :
  match first_result f l with
  | Some r => exists c, In c l /\ f c = Some r
  | None => forall c, In c l -> f c = None
  end.
Proof.
  induction l as [|c l IH]; simpl; [intros c []|].
  destruct (f c) as [r|] eqn:Hc; [exists c; auto|].
  destruct (first_result f l) as [r|].
  - destruct IH as (c' & Hin & Hc'). exists c'; auto.
  - intros c' [<- | Hin]; auto.
Qed.

Lemma subtree_trans (t u v : PTree) : subtree t u -> subtree u v -> subtree t v.
Proof.
  intros Htu Huv. induction Huv as [| i s e ch c Hin _ IH]; [exact Htu|].
  eapply subtree_child; eauto.
Qed.

Lemma rule_checks_cover (i : nat) (st sp : Token) (ch : list PTree) (column row : Z) :
  ((row <? line st) || ((line st =? row) && (column <? charPositionInLine st))) = false ->
  ((line sp <? row) || ((line sp =? row) && (tokenStop sp <? column))) = false ->
  covers (RuleContext i (Some st) (Some sp) ch) column row.
Proof.
  intros H1 H2. unfold covers.
  apply orb_false_iff in H1, H2. destruct H1 as [H1a H1b]. destruct H2 as [H2a H2b].
  apply Z.ltb_ge in H1a, H2a.
  apply andb_false_iff in H1b, H2b.
  destruct H1b as [H1b | H1b]; [apply Z.eqb_neq in H1b | apply Z.ltb_ge in H1b];
  destruct H2b as [H2b | H2b]; (try apply Z.eqb_neq in H2b); (try apply Z.ltb_ge in H2b);
  lia.
Qed.

(** Extra: what [parseTreeFromPosition] returns lies in the searched tree
    and contains the position: a terminal on that row whose columns
    [charPositionInLine .. tokenStop] include [column], or a rule context
    whose start token begins at or before the position and whose stop
    token ends at or after it. *)
Theorem parseTreeFromPosition_sound (root r : PTree) (column row : Z) :
  parseTreeFromPosition root column row = Some r ->
  subtree r root /\ covers r column row.
Proof.
  revert r. induction root as [t | i s e ch IH] using PTree_nested_ind; intros r H.
  - simpl in H.
    destruct (Z.eqb_spec (line t) row) as [Hl|]; [|discriminate].
    destruct (Z.leb_spec (charPositionInLine t) column);
      destruct (Z.leb_spec column (tokenStop t)); try discriminate.
    injection H as <-. split; [constructor | unfold covers; auto].
  - destruct s as [st|]; [|discriminate]. destruct e as [sp|]; [|discriminate].
    simpl in H.
    destruct ((row <? line st) || ((line st =? row) && (column <? charPositionInLine st))) eqn:H1;
      [discriminate|].
    destruct ((line sp <? row) || ((line sp =? row) && (tokenStop sp <? column))) eqn:H2;
      [discriminate|].
    pose proof (first_result_spec (fun child => parseTreeFromPosition child column row) ch) as Hf.
    destruct (first_result (fun child => parseTreeFromPosition child column row) ch) as [r'|].
    + injection H as ->. destruct Hf as (c & Hin & Hc).
      rewrite Forall_forall in IH. destruct (IH c Hin r Hc) as [Hsub Hcov].
      split; [exact (subtree_child _ _ _ _ _ c Hin Hsub) | exact Hcov].
    + injection H as <-. split; [constructor|]. exact (rule_checks_cover i st sp ch column row H1 H2).
Qed.

Lemma parseTreeFromPosition_sound_witness :
  let leaf := TerminalNode {| line := 1; charPositionInLine := 4; startIndex := 10;
                              stopIndex := 12; text := "abc" |} in
  let root := RuleContext 0 (Some {| line := 1; charPositionInLine := 0; startIndex := 6;
                                     stopIndex := 9; text := "rule" |})
                            (Some {| line := 1; charPositionInLine := 4; startIndex := 10;
                                     stopIndex := 12; text := "abc" |}) [leaf] in
  parseTreeFromPosition root 5 1 = Some leaf /\ subtree leaf root.
Proof.
  intros leaf root. split; [vm_compute; reflexivity|].
  exact (proj1 (parseTreeFromPosition_sound root leaf 5 1 ltac:(vm_compute; reflexivity))).
Defined.

(** Extra: the result of [parseTreeFromPosition] is the lowest node
    containing the position: no child of a returned rule context contains
    it, and searching again from the result returns the result. *)
Theorem parseTreeFromPosition_lowest (root r : PTree) (column row : Z) :
  parseTreeFromPosition root column row = Some r ->
  parseTreeFromPosition r column row = Some r /\
  match r with
  | RuleContext _ _ _ children =>
      forall c, In c children -> parseTreeFromPosition c column row = None
  | TerminalNode _ => True
  end.
Proof.
  revert r. induction root as [t | i s e ch IH] using PTree_nested_ind; intros r H.
  - pose proof H as H'. simpl in H'.
    destruct (negb (line t =? row)); [discriminate|].
    destruct ((charPositionInLine t <=? column) && (column <=? tokenStop t)); [|discriminate].
    injection H' as <-. auto.
  - destruct s as [st|]; [|discriminate]. destruct e as [sp|]; [|discriminate].
    pose proof H as H'. simpl in H'.
    destruct ((row <? line st) || ((line st =? row) && (column <? charPositionInLine st))) eqn:H1;
      [discriminate|].
    destruct ((line sp <? row) || ((line sp =? row) && (tokenStop sp <? column))) eqn:H2;
      [discriminate|].
    pose proof (first_result_spec (fun child => parseTreeFromPosition child column row) ch) as Hf.
    destruct (first_result (fun child => parseTreeFromPosition child column row) ch) as [r'|] eqn:Hfr.
    + injection H' as ->. destruct Hf as (c & Hin & Hc).
      rewrite Forall_forall in IH. exact (IH c Hin r Hc).
    + injection H' as <-. split; [exact H | exact Hf].
Qed.

Lemma parseTreeFromPosition_lowest_witness :
  let leaf := TerminalNode {| line := 1; charPositionInLine := 4; startIndex := 10;
                              stopIndex := 12; text := "abc" |} in
  let root := RuleContext 0 (Some {| line := 1; charPositionInLine := 0; startIndex := 6;
                                     stopIndex := 9; text := "rule" |})
                            (Some {| line := 1; charPositionInLine := 4; startIndex := 10;
                                     stopIndex := 12; text := "abc" |}) [leaf] in
  parseTreeFromPosition root 5 1 = Some leaf /\ parseTreeFromPosition leaf 5 1 = Some leaf.
Proof.
  intros leaf root. split; [vm_compute; reflexivity|].
  exact (proj1 (parseTreeFromPosition_lowest root leaf 5 1 ltac:(vm_compute; reflexivity))).
Defined.

Lemma first_result_ext {A : Type} (f g : PTree -> option A) (l : list PTree) :
  (forall c, In c l -> f c = g c) -> first_result f l = first_result g l.
Proof.
  induction l as [|c l IH]; intros H; simpl; [reflexivity|].
  rewrite (H c (or_introl eq_refl)). destruct (g c); [reflexivity|].
  apply IH. intros c' Hc'. apply H. right. exact Hc'.
Qed.

Lemma first_result_map {A B : Type} (h : A -> B) (f : PTree -> option A) (l : list PTree) :
  option_map h (first_result f l) = first_result (fun c => option_map h (f c)) l.
Proof.
  induction l as [|c l IH]; simpl; [reflexivity|]. destruct (f c); simpl; auto.
Qed.

Lemma parseTreeWithParents_node (root : PTree) (column row : Z) :
  option_map fst (parseTreeWithParents root column row) = parseTreeFromPosition root column row.
Proof.
  induction root as [t | i s e ch IH] using PTree_nested_ind.
  - simpl. destruct (negb (line t =? row)); [reflexivity|].
    destruct ((charPositionInLine t <=? column) && (column <=? tokenStop t)); reflexivity.
  - destruct s as [st|]; [|reflexivity]. destruct e as [sp|]; [|reflexivity].
    simpl.
    destruct ((row <? line st) || ((line st =? row) && (column <? charPositionInLine st)));
      [reflexivity|].
    destruct ((line sp <? row) || ((line sp =? row) && (tokenStop sp <? column)));
      [reflexivity|].
    rewrite Forall_forall in IH.
    rewrite <- (first_result_ext (fun c => option_map fst (parseTreeWithParents c column row)))
      by (intros c Hc; apply IH; exact Hc).
    rewrite <- first_result_map.
    destruct (first_result (fun child => parseTreeWithParents child column row) ch)
      as [[r ps]|]; reflexivity.
Qed.

Lemma parseTreeWithParents_chain (root t : PTree) (parents : list PTree) (column row : Z) :
  parseTreeWithParents root column row = Some (t, parents) ->
  subtree t root /\ covers t column row /\
  Forall (fun p => subtree p root /\ covers p column row) parents.
Proof.
  revert t parents.
  induction root as [tok | i s e ch IH] using PTree_nested_ind; intros t parents H.
  - simpl in H.
    destruct (Z.eqb_spec (line tok) row) as [Hl|]; [|discriminate].
    destruct (Z.leb_spec (charPositionInLine tok) column);
      destruct (Z.leb_spec column (tokenStop tok)); try discriminate.
    injection H as <- <-. split; [constructor|]. split; [unfold covers; auto | constructor].
  - destruct s as [st|]; [|discriminate]. destruct e as [sp|]; [|discriminate].
    simpl in H.
    destruct ((row <? line st) || ((line st =? row) && (column <? charPositionInLine st))) eqn:H1;
      [discriminate|].
    destruct ((line sp <? row) || ((line sp =? row) && (tokenStop sp <? column))) eqn:H2;
      [discriminate|].
    pose proof (rule_checks_cover i st sp ch column row H1 H2) as Hroot.
    pose proof (first_result_spec (fun child => parseTreeWithParents child column row) ch) as Hf.
    destruct (first_result (fun child => parseTreeWithParents child column row) ch)
      as [[r ps]|].
    + injection H as -> <-. destruct Hf as (c & Hin & Hc).
      rewrite Forall_forall in IH. destruct (IH c Hin t ps Hc) as (Hsub & Hcov & Hps).
      split; [exact (subtree_child _ _ _ _ _ c Hin Hsub)|]. split; [exact Hcov|].
      apply Forall_app. split.
      * eapply Forall_impl; [|exact Hps]. intros p [Hp Hpc].
        split; [exact (subtree_child _ _ _ _ _ c Hin Hp) | exact Hpc].
      * constructor; [split; [constructor | exact Hroot] | constructor].
    + injection H as <- <-. split; [constructor|]. split; [exact Hroot | constructor].
Qed.

Lemma get_app_length (m s : string) (c : ascii) :
  String.get (String.length m) (m ++ String c s) = Some c.
Proof. induction m as [|x m IH]; simpl; auto. Qed.

Lemma substring_app_length (m s : string) :
  substring 0 (String.length m) (m ++ s) = m.
Proof. induction m as [|x m IH]; simpl; [now destruct s | now rewrite IH]. Qed.

Lemma split_last (k : nat) : forall s c,
  String.length s = S k -> String.get k s = Some c ->
  s = substring 0 k s ++ String c "".
Proof.
  induction k as [|k IH]; intros [|x s] c Hl Hg; simpl in *; try discriminate.
  - destruct s; [|discriminate]. injection Hg as ->. reflexivity.
  - injection Hl as Hl. rewrite (IH s c Hl Hg) at 1. reflexivity.
Qed.

Lemma get_in_range (n : nat) : forall s,
  (n < String.length s)%nat -> exists c, String.get n s = Some c.
Proof.
  induction n as [|n IH]; intros [|c s] H; simpl in *; try lia.
  - exists c; reflexivity.
  - apply IH; lia.
Qed.

Lemma strip_quotes_spec (keepQuotes : bool) (d : DefinitionInfo) :
  let d' := strip_quotes keepQuotes d in
  start_column d' = start_column d /\ start_row d' = start_row d /\
  end_column d' = end_column d /\ end_row d' = end_row d /\
  (forall q m, keepQuotes = false -> is_quote q = true ->
     def_text d = String q (m ++ String q "") -> def_text d' = m) /\
  (def_text d' = def_text d \/
   exists q, keepQuotes = false /\ is_quote q = true /\
             def_text d = String q (def_text d' ++ String q "")).
Proof.
  cbv zeta. unfold strip_quotes.
  destruct (keepQuotes || (Z.of_nat (String.length (def_text d)) <? 2)) eqn:Hk.
  - repeat split; auto. intros q m Hkq _ Ht. subst keepQuotes. simpl in Hk.
    rewrite Ht in Hk. simpl in Hk. rewrite string_length_app in Hk. apply Z.ltb_lt in Hk. simpl String.length in Hk. lia.
  - apply orb_false_iff in Hk. destruct Hk as [-> Hlen]. apply Z.ltb_ge in Hlen.
    destruct (def_text d) as [|q0 t0] eqn:Ht; [simpl in Hlen; lia|].
    cbn [String.get].
    assert (Hl : (String.length (String q0 t0) - 1 = S (String.length t0 - 1))%nat).
    { simpl in Hlen. simpl. lia. }
    rewrite Hl. cbn [String.get].
    destruct (String.get (String.length t0 - 1) t0) as [l|] eqn:Hg.
    + pose proof (split_last (String.length t0 - 1) t0 l) as Hs.
      assert (Ht0 : String.length t0 = S (String.length t0 - 1)) by (simpl in Hlen; lia).
      specialize (Hs Ht0 Hg).
      destruct (is_quote q0 && Ascii.eqb q0 l) eqn:Hq.
      * apply andb_true_iff in Hq. destruct Hq as [Hq Hql]. apply Ascii.eqb_eq in Hql. subst l.
        assert (Hsub : substring 1 (String.length (String q0 t0) - 2) (String q0 t0)
                       = substring 0 (String.length t0 - 1) t0).
        { simpl. f_equal; lia. }
        cbn [set_text def_text start_column start_row end_column end_row].
        rewrite Hsub. repeat split; auto.
        -- intros q m _ _ E. injection E as -> E.
           rewrite E. rewrite string_length_app. simpl String.length.
           replace (String.length m + 1 - 1)%nat with (String.length m) by lia.
           apply substring_app_length.
        -- right. exists q0. repeat split; auto. rewrite <- Hs. reflexivity.
      * repeat split; auto. intros q m _ Hq' E. injection E as <- E.
        rewrite E in Hg. rewrite string_length_app in Hg. simpl String.length in Hg.
        replace (String.length m + 1 - 1)%nat with (String.length m) in Hg by lia.
        rewrite get_app_length in Hg. injection Hg as <-.
        rewrite Hq', Ascii.eqb_refl in Hq. discriminate.
    + exfalso. assert (Hlt : (String.length t0 - 1 < String.length t0)%nat) by (simpl in Hlen; lia).
      destruct (get_in_range _ _ Hlt) as [c Hc]. congruence.
Qed.

Section Definitions.
Variables RULE_modeSpec RULE_grammarSpec : nat.
Variable semiOf grammarTypeStartOf : PTree -> option Token.
Variable getText : Z -> Z -> string.

(** Extra: for a terminal, [definitionForContext] returns the token's
    text with one pair of matching quotes removed exactly when
    [keepQuotes] is unset and the text is quoted, while the range always
    spans the unstripped token: it ends [length] columns after its start
    on the token's line. *)
Theorem definitionForContext_terminal (token : Token) (keepQuotes : bool) :
  exists d,
    definitionForContext RULE_modeSpec RULE_grammarSpec semiOf grammarTypeStartOf getText
      (Some (TerminalNode token)) keepQuotes = Returned (Some d) /\
    start_row d = line token /\ end_row d = line token /\
    start_column d = charPositionInLine token /\
    end_column d = charPositionInLine token + Z.of_nat (String.length (text token)) /\
    (forall q m, keepQuotes = false -> is_quote q = true ->
       text token = String q (m ++ String q "") -> def_text d = m) /\
    (def_text d = text token \/
     exists q, keepQuotes = false /\ is_quote q = true /\
               text token = String q (def_text d ++ String q "")).
Proof.
  eexists. split; [reflexivity|].
  match goal with |- context [strip_quotes keepQuotes ?d0] =>
    destruct (strip_quotes_spec keepQuotes d0) as (H1 & H2 & H3 & H4 & H5 & H6) end.
  cbn [start_column start_row end_column end_row def_text] in *.
  repeat split; auto.
Qed.

(** Extra: for a rule context, [definitionForContext] throws a
    [TypeError] when the start or stop token is missing; otherwise, for
    rules other than [modeSpec] and [grammarSpec], the range runs from the
    start of the start token to the start (not the end) of the stop token,
    and the text is the input from the start token's first character to
    the stop token's last, with one pair of matching quotes removed
    exactly when [keepQuotes] is unset and the text is quoted, as for
    terminals. *)
Theorem definitionForContext_rule_context (ruleIndex : nat) (start stop : option Token)
    (children : list PTree) (keepQuotes : bool) :
  (start = None \/ stop = None ->
   definitionForContext RULE_modeSpec RULE_grammarSpec semiOf grammarTypeStartOf getText
     (Some (RuleContext ruleIndex start stop children)) keepQuotes = Thrown TypeError) /\
  (forall st sp, start = Some st -> stop = Some sp ->
   ruleIndex <> RULE_modeSpec -> ruleIndex <> RULE_grammarSpec ->
   exists d,
     definitionForContext RULE_modeSpec RULE_grammarSpec semiOf grammarTypeStartOf getText
       (Some (RuleContext ruleIndex start stop children)) keepQuotes = Returned (Some d) /\
     start_column d = charPositionInLine st /\ start_row d = line st /\
     end_column d = charPositionInLine sp /\ end_row d = line sp /\
     (forall q m, keepQuotes = false -> is_quote q = true ->
        getText (startIndex st) (stopIndex sp) = String q (m ++ String q "") ->
        def_text d = m) /\
     (def_text d = getText (startIndex st) (stopIndex sp) \/
      exists q, keepQuotes = false /\ is_quote q = true /\
        getText (startIndex st) (stopIndex sp) = String q (def_text d ++ String q ""))).
Proof.
  split.
  - intros [-> | ->]; simpl; [reflexivity|]. destruct start; reflexivity.
  - intros st sp -> -> Hm Hg. simpl.
    apply Nat.eqb_neq in Hm, Hg. rewrite Hm, Hg.
    eexists. split; [reflexivity|].
    match goal with |- context [strip_quotes keepQuotes ?d0] =>
      destruct (strip_quotes_spec keepQuotes d0) as (H1 & H2 & H3 & H4 & H5 & H6) end.
    cbn [start_column start_row end_column end_row def_text] in *.
    repeat split; auto.
Qed.

End Definitions.

Lemma definitionForContext_terminal_witness :
  exists d,
    definitionForContext 0 1 (fun _ => None) (fun _ => None) (fun _ _ => "")
      (Some (TerminalNode {| line := 3; charPositionInLine := 2; startIndex := 0;
                             stopIndex := 4; text := "'abc'" |})) false = Returned (Some d) /\
    def_text d = "abc" /\ end_column d = 7.
Proof.
  destruct (definitionForContext_terminal 0 1 (fun _ => None) (fun _ => None) (fun _ _ => "")
    {| line := 3; charPositionInLine := 2; startIndex := 0; stopIndex := 4; text := "'abc'" |} false)
    as (d & Hd & _ & _ & _ & He & Hs & _).
  exists d. split; [exact Hd|]. split.
  - apply (Hs "'"%char "abc"); reflexivity.
  - rewrite He. reflexivity.
Defined.

Lemma definitionForContext_rule_context_witness :
  let st := {| line := 1; charPositionInLine := 0; startIndex := 0; stopIndex := 3; text := "'a'" |} in
  let sp := {| line := 2; charPositionInLine := 5; startIndex := 20; stopIndex := 20; text := "'" |} in
  exists d,
    definitionForContext 0 1 (fun _ => None) (fun _ => None) (fun _ _ => "'a;b'")
      (Some (RuleContext 7 (Some st) (Some sp) [])) false = Returned (Some d) /\
    def_text d = "a;b" /\ end_column d = 5.
Proof.
  intros st sp.
  destruct (proj2 (definitionForContext_rule_context 0 1 (fun _ => None) (fun _ => None)
                     (fun _ _ => "'a;b'") 7 (Some st) (Some sp) [] false) st sp
                  eq_refl eq_refl ltac:(discriminate) ltac:(discriminate))
    as (d & Hd & _ & _ & He & _ & Hs & _).
  exists d. split; [exact Hd|]. split; [|exact He].
  apply (Hs "'"%char "a;b"); reflexivity.
Defined.

End ParseTreeFacts.

Module ContextDataFacts.
Import ATNGraph Context ContextData.

Lemma combine_app {A B} (l1 l2 : list A) (s1 s2 : list B) :
  List.length l1 = List.length s1 -> combine (l1 ++ l2) (s1 ++ s2) = combine l1 s1 ++ combine l2 s2.
Proof.
  revert s1. induction l1 as [|x l1 IH]; intros [|y s1] H; simpl in *; try discriminate; auto.
  f_equal. apply IH. lia.
Qed.

Lemma map_get_last_index (names : list string) (name : string) (i : nat) :
  map_get (rev (combine names (seq 0 (List.length names)))) name = Some i <->
  nth_error names i = Some name /\ (forall j, i < j -> nth_error names j <> Some name).
Proof.
  revert i. induction names as [|x names IH] using rev_ind; intros i.
  - simpl. split; [discriminate|]. intros [H _]. destruct i; discriminate.
  - rewrite length_app, seq_app, combine_app by (rewrite length_seq; reflexivity).
    simpl List.length. simpl seq. rewrite ?Nat.add_0_l. simpl combine.
    rewrite rev_app_distr. simpl rev. simpl app. cbn [map_get].
    destruct (String.eqb_spec name x) as [-> | Hne].
    + split.
      * intros E. injection E as <-. split.
        -- rewrite nth_error_app2, Nat.sub_diag by lia. reflexivity.
        -- intros j Hj. rewrite nth_error_app2 by lia.
           destruct (j - List.length names) as [|k] eqn:Hk; [lia|]. simpl. now destruct k.
      * intros [H1 H2]. f_equal.
        destruct (Nat.lt_trichotomy i (List.length names)) as [Hlt | [Heq | Hgt]]; auto.
        -- exfalso. apply (H2 (List.length names) Hlt).
           rewrite nth_error_app2, Nat.sub_diag by lia. reflexivity.
        -- rewrite nth_error_app2 in H1 by lia.
           destruct (i - List.length names) as [|k] eqn:Hk; [lia|]. destruct k; discriminate.
    + rewrite IH. split.
      * intros [H1 H2].
        assert (Hi : i < List.length names) by (apply nth_error_Some; congruence).
        split; [rewrite nth_error_app1 by exact Hi; exact H1|].
        intros j Hj. destruct (Nat.lt_ge_cases j (List.length names)) as [Hjl | Hjg].
        -- rewrite nth_error_app1 by exact Hjl. auto.
        -- rewrite nth_error_app2 by exact Hjg.
           destruct (j - List.length names) as [|k]; simpl; [congruence | now destruct k].
      * intros [H1 H2].
        assert (Hi : i < List.length names).
        { destruct (Nat.lt_ge_cases i (List.length names)) as [Hl | Hg]; [exact Hl|].
          rewrite nth_error_app2 in H1 by exact Hg.
          destruct (i - List.length names) as [|k]; simpl in H1; [congruence | now destruct k]. }
        rewrite nth_error_app1 in H1 by exact Hi. split; [exact H1|].
        intros j Hj Hjn. apply (H2 j Hj).
        rewrite nth_error_app1; [exact Hjn|]. apply nth_error_Some; congruence.
Qed.

(** Extra: after [setupInterpreters] loads interpreter data, its rule
    index map sends a name to [i] exactly when [i] is the last position of
    the name in [ruleNames] (a later [map.set] overwrites an earlier one);
    names not in [ruleNames] have no index. *)
Theorem setupInterpreters_rule_index (lexerFile parserFile : option InterpreterData)
    (c : Ctx) (name : string) (i : nat) :
  (forall d, lexerFile = Some d ->
     map_get (grammarLexerRuleMap (setupInterpreters lexerFile parserFile c)) name = Some i <->
     nth_error (ruleNames d) i = Some name /\
     (forall j, i < j -> nth_error (ruleNames d) j <> Some name)) /\
  (forall d, parserFile = Some d ->
     map_get (grammarParserRuleMap (setupInterpreters lexerFile parserFile c)) name = Some i <->
     nth_error (ruleNames d) i = Some name /\
     (forall j, i < j -> nth_error (ruleNames d) j <> Some name)).
Proof.
  split; intros d ->; cbn [grammarLexerRuleMap grammarParserRuleMap setupInterpreters];
    apply map_get_last_index.
Qed.

Lemma setupInterpreters_rule_index_witness :
  let d := {| atn := collide_atn; ruleNames := ["a"; "b"; "a"]%string |} in
  map_get (grammarParserRuleMap (setupInterpreters None (Some d) new_ctx)) "a" = Some 2.
Proof.
  intros d. apply (proj2 (setupInterpreters_rule_index None (Some d) new_ctx "a" 2) d eq_refl).
  split; [reflexivity|]. intros j Hj.
  rewrite (proj2 (nth_error_None _ _)) by (simpl; lia). discriminate.
Defined.

Section Files.
Variable basename : string -> string -> string.
Variable dirname : string -> string.
Variable join : string -> string -> string.
Variable existsSync : string -> bool.
Variable parseFile : string -> InterpreterData.

(** Extra: [setupInterpreters] loads only the data the grammar type asks
    for and unloads the rest: no parser data for a lexer grammar, no lexer
    data for a parser grammar, nothing for a grammar of unknown type
    ([fs.existsSync("")] is false). *)
Theorem setupInterpreters_loads_by_type (fileName : string) (outputDir : option string)
    (c : Ctx) :
  existsSync "" = false ->
  let c' := setupInterpretersFromFiles basename dirname join existsSync parseFile
              fileName outputDir c in
  (grammarType c = Lexer \/ grammarType c = Unknown ->
     grammarParserData c' = None /\ grammarParserRuleMap c' = []) /\
  (grammarType c = Parser \/ grammarType c = Unknown ->
     grammarLexerData c' = None /\ grammarLexerRuleMap c' = []).
Proof.
  intros He c'. subst c'. unfold setupInterpretersFromFiles, interp_files.
  split; intros [Ht | Ht]; rewrite Ht; unfold load; rewrite He; simpl; auto.
Qed.
End Files.

Lemma setupInterpreters_loads_by_type_witness :
  let c := {| tree := None; grammarType := Lexer; imports := []; unreferencedRules := [];
              diagnostics := []; semanticAnalysisDone := false; rrdScripts := [];
              semanticWalks := 0; symbols := []; symbolDeps := [];
              grammarLexerData := None; grammarLexerRuleMap := [];
              grammarParserData := Some {| atn := call_atn; ruleNames := ex_names |};
              grammarParserRuleMap := [("a", 0)]%string; tokenPos := 0 |} in
  grammarParserData (setupInterpretersFromFiles (fun p _ => p) (fun _ => "dir"%string)
                       (fun a b => (a ++ "/" ++ b)%string) (fun f => negb (String.eqb f ""))
                       (fun _ => {| atn := call_atn; ruleNames := ex_names |})
                       "dir/L.g4" None c) = None.
Proof.
  intros c.
  exact (proj1 (proj1 (setupInterpreters_loads_by_type (fun p _ => p) (fun _ => "dir"%string)
                 (fun a b => (a ++ "/" ++ b)%string) (fun f => negb (String.eqb f ""))
                 (fun _ => {| atn := call_atn; ruleNames := ex_names |})
                 "dir/L.g4" None c eq_refl) (or_introl eq_refl))).
Defined.

Section Diagnostics.
Variable grammarSpec : ErrorStrategy -> PredictionMode -> nat -> ParseOutcome.
Variable grammarTypeOf : Tree -> option GrammarType.
Variable detailsWalk : option Tree -> list string * list string.
Variable getUnreferencedSymbols : list string -> list string.
Variable semanticWalk : option Tree -> list string -> list Diag.
Variable ruleVisitor : option Tree -> list (string * string).
Variable DiagnosticType_Error : nat.

(** Extra: right after [parse], [hasErrors] depends only on the new parse
    run: two contexts, whatever their earlier diagnostics and state, give
    the same answer. *)
Theorem hasErrors_after_parse (c1 c2 : Ctx) :
  hasErrors DiagnosticType_Error
    (fst (fst (parse grammarSpec grammarTypeOf detailsWalk getUnreferencedSymbols c1)))
  = hasErrors DiagnosticType_Error
      (fst (fst (parse grammarSpec grammarTypeOf detailsWalk getUnreferencedSymbols c2))).
Proof.
  unfold hasErrors, parse. cbn [parse_reset tokenPos].
  destruct (out_result (grammarSpec BailErrorStrategy SLL 0)) as [t | [|e]];
    cbn [fst after_attempt seek0 diagnostics tokenPos].
  - unfold parse_finish. destruct (detailsWalk (Some t)). reflexivity.
  - destruct (out_result (grammarSpec DefaultErrorStrategy LL 0)) as [t | e];
      cbn [fst after_attempt seek0 diagnostics tokenPos]; [|reflexivity].
    unfold parse_finish. destruct (detailsWalk (Some t)). reflexivity.
  - reflexivity.
Qed.

Lemma run_op_query_diagnostics (c : Ctx) (op : Op) :
  is_query op = true ->
  exists extra, diagnostics (run_op grammarSpec grammarTypeOf detailsWalk getUnreferencedSymbols
                                semanticWalk ruleVisitor c op) = diagnostics c ++ extra.
Proof.
  destruct op; simpl; try discriminate; intros _; unfold runSemanticAnalysisIfNeeded;
    (destruct (semanticAnalysisDone c);
     [exists []; now rewrite app_nil_r | eexists; reflexivity]).
Qed.

(** Extra: the queries that run the semantic pass ([getDiagnostics],
    [getReferenceGraph], [getRRDScript], [getReferenceCount]) never turn
    [hasErrors] back to false: the pass only appends diagnostics. *)
Theorem hasErrors_kept_by_queries (c : Ctx) (ops : list Op) :
  Forall (fun op => is_query op = true) ops ->
  hasErrors DiagnosticType_Error c = true ->
  hasErrors DiagnosticType_Error
    (run_ops grammarSpec grammarTypeOf detailsWalk getUnreferencedSymbols
             semanticWalk ruleVisitor c ops) = true.
Proof.
  unfold run_ops. revert c. induction ops as [|op ops IH]; intros c Hq He; [exact He|].
  inversion Hq as [|? ? Hop Hops]; subst. simpl. apply IH; [exact Hops|].
  destruct (run_op_query_diagnostics c op Hop) as [extra E].
  unfold hasErrors in *. rewrite E, existsb_app, He. reflexivity.
Qed.
End Diagnostics.

Lemma hasErrors_kept_by_queries_witness :
  let c := {| tree := None; grammarType := Unknown; imports := []; unreferencedRules := [];
              diagnostics := [{| diag_type := 3; diag_message := "syntax error" |}]%string;
              semanticAnalysisDone := false; rrdScripts := [];
              semanticWalks := 0; symbols := []; symbolDeps := [];
              grammarLexerData := None; grammarLexerRuleMap := [];
              grammarParserData := None; grammarParserRuleMap := []; tokenPos := 0 |} in
  hasErrors 3 (run_ops (fun _ _ _ => {| out_result := inr (OtherException 0); out_diags := [];
                                         out_end := 0 |})
                       (fun _ => None) (fun _ => ([], [])) (fun l => l) (fun _ _ => [])
                       (fun _ => []) c [GetDiagnostics; GetRRDScript "r"%string]) = true.
Proof.
  intros c.
  apply (hasErrors_kept_by_queries _ _ _ _ _ _ 3 c [GetDiagnostics; GetRRDScript "r"%string]).
  - repeat constructor.
  - reflexivity.
Defined.

Section Actions.
Variable InfoFields : Type.
Variable lexerActionsOf : InterpreterData -> list LexerAction.

Lemma map_fields_describe (internal : list LexerAction) (actions : list (SymbolInfo InfoFields)) :
  List.length actions = List.length internal ->
  map (@info_fields InfoFields)
      (map (fun '(value, info) => describe InfoFields value info) (combine internal actions))
  = map (@info_fields InfoFields) actions.
Proof.
  revert actions. induction internal as [|v internal IH]; intros [|x actions] H;
    simpl in *; try discriminate; [reflexivity|].
  f_equal. apply IH. lia.
Qed.

(** Extra: [listActions] never drops, adds or reorders single actions:
    it returns the symbol table's actions with at most their descriptions
    changed, or no action at all, and the latter only for lexer actions
    when the loaded lexer data has a different number of actions. *)
Theorem listActions_all_or_nothing (isLexerType : bool) (c : Ctx)
    (actions : list (SymbolInfo InfoFields)) :
  map (@info_fields InfoFields) (listActions InfoFields lexerActionsOf isLexerType c actions)
    = map (@info_fields InfoFields) actions \/
  (listActions InfoFields lexerActionsOf isLexerType c actions = [] /\
   isLexerType = true /\
   exists d, grammarLexerData c = Some d /\
             List.length (lexerActionsOf d) <> List.length actions).
Proof.
  unfold listActions. destruct isLexerType; [|left; reflexivity].
  destruct (grammarLexerData c) as [d|]; [|left; reflexivity].
  destruct (Nat.eqb_spec (List.length actions) (List.length (lexerActionsOf d))) as [E | E];
    simpl.
  - left. now apply map_fields_describe.
  - right. split; [reflexivity|]. split; [reflexivity|]. exists d. split; [reflexivity|]. lia.
Qed.
End Actions.

Section RuleAtPosition.
Import ParseTree ParseTreeFacts.
Variables RULE_parserRuleSpec RULE_lexerRuleSpec : nat.
Variables ruleRefText tokenRefText : PTree -> string.

Lemma find_rule_spec_found (chain : list PTree) (context : PTree) :
  find_rule_spec RULE_parserRuleSpec RULE_lexerRuleSpec chain = Some context ->
  In context chain /\
  (ruleIndexOf context = Some RULE_parserRuleSpec \/
   ruleIndexOf context = Some RULE_lexerRuleSpec).
Proof.
  induction chain as [|t chain IH]; simpl; [discriminate|].
  destruct (ruleIndexOf t) as [k|] eqn:Ht.
  - destruct (Nat.eqb_spec k RULE_parserRuleSpec) as [-> | _];
      [intros E; injection E as <-; auto|].
    destruct (Nat.eqb_spec k RULE_lexerRuleSpec) as [-> | _];
      [intros E; injection E as <-; auto|].
    intros H. destruct (IH H) as [Hin Hk]. auto.
  - intros H. destruct (IH H) as [Hin Hk]. auto.
Qed.

(** Extra: when [ruleFromPosition] returns a rule name and an index
    after [setupInterpreters], the name is that of a parser rule spec
    ([RULE_REF]) or lexer rule spec ([TOKEN_REF]) context of the tree that
    contains the position, the index comes from the matching loaded data
    (parser data for a parser rule, lexer data for a lexer rule), and it is
    the last position of the name in that data's [ruleNames]. *)
Theorem ruleFromPosition_index (lexerFile parserFile : option InterpreterData) (c : Ctx)
    (root : PTree) (column row : Z) (name : string) (i : nat) :
  ruleFromPosition RULE_parserRuleSpec RULE_lexerRuleSpec ruleRefText tokenRefText
    (setupInterpreters lexerFile parserFile c) root column row = (Some name, Some i) ->
  exists context d,
    subtree context root /\ covers context column row /\
    ((ruleIndexOf context = Some RULE_parserRuleSpec /\ name = ruleRefText context /\
      parserFile = Some d) \/
     (ruleIndexOf context = Some RULE_lexerRuleSpec /\ name = tokenRefText context /\
      lexerFile = Some d)) /\
    nth_error (ruleNames d) i = Some name /\
    (forall j, i < j -> nth_error (ruleNames d) j <> Some name).
Proof.
  unfold ruleFromPosition.
  destruct (parseTreeWithParents root column row) as [[t ps]|] eqn:Hp; [|discriminate].
  destruct (parseTreeWithParents_chain root t ps column row Hp) as (Hts & Htc & Hps).
  destruct (find_rule_spec RULE_parserRuleSpec RULE_lexerRuleSpec (t :: ps)) as [ctx|] eqn:Hf;
    [|discriminate].
  destruct (find_rule_spec_found _ _ Hf) as [Hin Hk].
  assert (Hctx : subtree ctx root /\ covers ctx column row).
  { destruct Hin as [<- | Hin]; [auto|]. rewrite Forall_forall in Hps. exact (Hps ctx Hin). }
  destruct Hctx as [Hsub Hcov].
  destruct (match ruleIndexOf ctx with
            | Some k => Nat.eqb k RULE_parserRuleSpec | None => false end) eqn:Hpar.
  - cbn [grammarParserData grammarParserRuleMap setupInterpreters].
    destruct parserFile as [d|]; [|intros E; injection E as _; discriminate].
    intros E. injection E as En Ei. subst name.
    apply map_get_last_index in Ei. destruct Ei as [Ei Ej].
    exists ctx, d. split; [exact Hsub|]. split; [exact Hcov|].
    split; [|split; [exact Ei | exact Ej]].
    left. split; [|split; reflexivity].
    destruct (ruleIndexOf ctx) as [k|]; [|discriminate]. apply Nat.eqb_eq in Hpar. now subst.
  - cbn [grammarLexerData grammarLexerRuleMap setupInterpreters].
    destruct lexerFile as [d|]; [|intros E; injection E as _; discriminate].
    intros E. injection E as En Ei. subst name.
    apply map_get_last_index in Ei. destruct Ei as [Ei Ej].
    exists ctx, d. split; [exact Hsub|]. split; [exact Hcov|].
    split; [|split; [exact Ei | exact Ej]].
    right. split; [|split; reflexivity].
    destruct Hk as [Hk | Hk]; [|exact Hk].
    rewrite Hk, Nat.eqb_refl in Hpar. discriminate.
Qed.
End RuleAtPosition.

Lemma ruleFromPosition_index_witness :
  let leaf := ParseTree.TerminalNode {| ParseTree.line := 1; ParseTree.charPositionInLine := 4;
                ParseTree.startIndex := 10; ParseTree.stopIndex := 12; ParseTree.text := "a" |} in
  let root := ParseTree.RuleContext 5
                (Some {| ParseTree.line := 1; ParseTree.charPositionInLine := 0;
                         ParseTree.startIndex := 6; ParseTree.stopIndex := 9;
                         ParseTree.text := "rule" |})
                (Some {| ParseTree.line := 1; ParseTree.charPositionInLine := 4;
                         ParseTree.startIndex := 10; ParseTree.stopIndex := 12;
                         ParseTree.text := "a" |}) [leaf] in
  let d := {| atn := collide_atn; ruleNames := ["a"; "b"; "a"]%string |} in
  let c := setupInterpreters None (Some d) new_ctx in
  ruleFromPosition 5 6 (fun _ => "a"%string) (fun _ => "B"%string) c root 5 1
    = (Some "a"%string, Some 2) /\
  exists context d',
    ParseTree.subtree context root /\ ParseTree.covers context 5 1 /\
    ((ParseTree.ruleIndexOf context = Some 5 /\ "a"%string = "a"%string /\ Some d = Some d') \/
     (ParseTree.ruleIndexOf context = Some 6 /\ "a"%string = "B"%string /\ None = Some d')) /\
    nth_error (ruleNames d') 2 = Some "a"%string /\
    (forall j, 2 < j -> nth_error (ruleNames d') j <> Some "a"%string).
Proof.
  intros leaf root d c.
  assert (H : ruleFromPosition 5 6 (fun _ => "a"%string) (fun _ => "B"%string) c root 5 1
              = (Some "a"%string, Some 2)) by (vm_compute; reflexivity).
  split; [exact H|].
  exact (ruleFromPosition_index 5 6 (fun _ => "a"%string) (fun _ => "B"%string)
           None (Some d) new_ctx root 5 1 "a" 2 H).
Defined.

End ContextDataFacts.
